(** * An optional TABLE constraint for CP-SAT: [recipes/table-optional.py]

    The recipe decomposes [AddAllowedAssignments(...).OnlyEnforceIf(option)],
    which the engine does not support, into primitive constraints.  This file
    embeds the recipe as a program in a state-and-exception monad over the
    constraint model, gives the emitted constraints their meaning on
    assignments, and proves the properties of the decomposition. *)

From stdpp Require Import gmap list strings pretty.
From Stdlib Require Import ZArith Lia.

#[local] Set Warnings "-clear-no-such-hyp".

(** ** Python values reaching [table_optional] *)

(** An [IntVar] is a handle on a variable of the model: its index in the
    model's variable table. *)
Record IntVar := mkIntVar { Index : nat }.

#[warnings="-register-all"] Inductive pyval :=
| PyNone
| PyBool (b : bool)
| PyInt (z : Z)
| PyStr (s : string)
| PyList (items : list pyval)
| PyTuple (items : list pyval)
| PyIntVar (v : IntVar).

(** [isinstance(x, List | Tuple)], giving the items. *)
Definition as_sequence (x : pyval) : option (list pyval) :=
  match x with
  | PyList items | PyTuple items => Some items
  | _ => None
  end.

(** [isinstance(x, int)]: [bool] is a subclass of [int]. *)
Definition as_int (x : pyval) : option Z :=
  match x with
  | PyInt z => Some z
  | PyBool b => Some (Z.b2z b)
  | _ => None
  end.

(** [isinstance(x, cp_model.IntVar)]. *)
Definition as_IntVar (x : pyval) : option IntVar :=
  match x with
  | PyIntVar v => Some v
  | _ => None
  end.

(** ** The constraint model of the engine *)

Record IntegerVariable := mkVar { var_name : string; var_lb : Z; var_ub : Z }.

Inductive LinearExpr :=
| Term (v : IntVar)
| Sum (vs : list IntVar).

Inductive ConstraintBody :=
| LinearEq (e : LinearExpr) (k : Z)
| BoolAnd (literals : list IntVar).

Record Constraint := mkConstraint {
  body : ConstraintBody;
  enforcement_literal : list IntVar
}.

Record CpModel := mkModel {
  model_variables : list IntegerVariable;
  model_constraints : list Constraint;
  model_objective : option LinearExpr
}.

Definition empty_model : CpModel := mkModel [] [] None.

(** ** State and exceptions *)

Inductive exn := AssertionError | KeyError | ValueError | IndexError.

(** A computation runs on the model, may change it, and returns or raises. *)
Definition M (A : Type) : Type := CpModel → CpModel * (exn + A).

Definition ret {A} (x : A) : M A := λ m, (m, inr x).
Definition raise {A} (e : exn) : M A := λ m, (m, inl e).
Definition bind {A B} (c : M A) (k : A → M B) : M B :=
  λ m, match c m with
       | (m', inr x) => k x m'
       | (m', inl e) => (m', inl e)
       end.

Notation "x <~ c ; k" := (bind c (λ x, k))
  (at level 20, c at level 100, k at level 200, only parsing).

(** [for x in l: f x] *)
Fixpoint for_each {A} (l : list A) (f : A → M unit) : M unit :=
  match l with
  | [] => ret tt
  | x :: l' => _ <~ f x ; for_each l' f
  end.

(** [[f x for x in l]] *)
Fixpoint list_comp {A B} (l : list A) (f : A → M B) : M (list B) :=
  match l with
  | [] => ret []
  | x :: l' => y <~ f x ; ys <~ list_comp l' f ; ret (y :: ys)
  end.

(** A loop that updates a local [s]. *)
Fixpoint for_fold {A S} (l : list A) (f : S → A → M S) (s : S) : M S :=
  match l with
  | [] => ret s
  | x :: l' => s' <~ f s x ; for_fold l' f s'
  end.

Definition py_assert (b : bool) : M unit :=
  if b then ret tt else raise AssertionError.

(** [assert isinstance(x, T)], giving the value at type [T]. *)
Definition assert_isinstance {A} (o : option A) : M A :=
  match o with
  | Some x => ret x
  | None => raise AssertionError
  end.

(** [l[i]] for an index from [range(...)]. *)
Definition getitem {A} (l : list A) (i : nat) : M A :=
  match l !! i with
  | Some x => ret x
  | None => raise IndexError
  end.

(** [l[z]] for an integer [z]: a negative index counts from the end. *)
Definition getitem_int {A} (l : list A) (z : Z) : M A :=
  let k := (if z <? 0 then z + Z.of_nat (length l) else z)%Z in
  if (k <? 0)%Z then raise IndexError else getitem l (Z.to_nat k).

(** [d[k]] on a dict. *)
Definition dict_get {V} (d : gmap nat V) (k : nat) : M V :=
  match d !! k with
  | Some x => ret x
  | None => raise KeyError
  end.

(** [max(l)]: [ValueError] on an empty sequence. *)
Definition py_max (l : list Z) : M Z :=
  match l with
  | [] => raise ValueError
  | x :: l' => ret (foldl Z.max x l')
  end.

(** [range(n)] for an integer [n]. *)
Definition range (n : Z) : list Z := seqZ 0 n.

(** ** The modelling API *)

Definition NewIntVar (lb ub : Z) (name : string) : M IntVar :=
  λ m, (mkModel (model_variables m ++ [mkVar name lb ub])
                (model_constraints m) (model_objective m),
        inr (mkIntVar (length (model_variables m)))).

Definition NewBoolVar (name : string) : M IntVar := NewIntVar 0 1 name.

(** [model.Add(e == k)] and [model.AddBoolAnd(lits)] append a constraint with
    no enforcement literal and return a handle on it. *)
Definition add_constraint (b : ConstraintBody) : M nat :=
  λ m, (mkModel (model_variables m)
                (model_constraints m ++ [mkConstraint b []])
                (model_objective m),
        inr (length (model_constraints m))).

Definition Add (e : LinearExpr) (k : Z) : M nat := add_constraint (LinearEq e k).
Definition AddBoolAnd (lits : list IntVar) : M nat := add_constraint (BoolAnd lits).

(** [ct.OnlyEnforceIf(lit)] appends [lit] to the enforcement literals of the
    constraint behind the handle.  This is the engine on a Boolean [lit], a
    variable with its domain within [0, 1], as [NewBoolVar] declares.  What
    the engine does with another variable differs between its versions (it
    takes the literal, or refuses it with the constraint already added) and
    is not modelled. *)
Definition OnlyEnforceIf (ct : nat) (lit : IntVar) : M unit :=
  λ m, (mkModel (model_variables m)
                (alter (λ c, mkConstraint (body c) (enforcement_literal c ++ [lit]))
                       ct (model_constraints m))
                (model_objective m),
        inr tt).

Definition Minimize (e : LinearExpr) : M unit :=
  λ m, (mkModel (model_variables m) (model_constraints m) (Some e), inr tt).

(** ** [table_optional] *)

(** Lines 20-33: the assertions.  The model is the state of the computation,
    so [isinstance(model, cp_model.CpModel)] holds by typing.  The checked
    arguments are returned at their types. *)
Definition check_arguments (variables tuples option : pyval)
  : M (list IntVar * list (list Z) * IntVar) :=
  vs <~ assert_isinstance (as_sequence variables) ;
  _ <~ py_assert (0 <? length vs) ;
  vars <~ list_comp vs (λ v, assert_isinstance (as_IntVar v)) ;
  ts <~ assert_isinstance (as_sequence tuples) ;
  _ <~ py_assert (0 <? length ts) ;
  tups <~ list_comp ts (λ t,
            items <~ assert_isinstance (as_sequence t) ;
            list_comp items (λ i,
              z <~ assert_isinstance (as_int i) ;
              _ <~ py_assert (0 <=? z)%Z ;
              ret z)) ;
  t0 <~ getitem tups 0 ;
  _ <~ py_assert (length vars =? length t0) ;
  opt <~ assert_isinstance (as_IntVar option) ;
  ret (vars, tups, opt).

(** [possible_values[i].add(j)] *)
Definition add_possible_value (pv : gmap nat (gset Z)) (ij : nat * Z)
  : M (gmap nat (gset Z)) :=
  s <~ dict_get pv ij.1 ;
  ret (<[ij.1 := s ∪ {[ij.2]}]> pv).

(** [enumerate(t)] *)
Definition enumerate {A} (t : list A) : list (nat * A) := imap pair t.

(** Lines 37-71.  The locals [b] and [is_assigned] are returned so that
    properties of the auxiliary variables can be stated. *)
Definition encode (variables : list IntVar) (tuples : list (list Z))
    (option : IntVar) : M (list IntVar * list (list IntVar)) :=
  b <~ list_comp (seq 0 (length tuples))
         (λ i, NewBoolVar ("b[" +:+ pretty i +:+ "]")) ;
  let possible_values : gmap nat (gset Z) :=
    list_to_map ((λ i, (i, ∅)) <$> seq 0 (length variables)) in
  maxes <~ list_comp tuples py_max ;
  max_value <~ py_max maxes ;
  possible_values <~
    for_fold tuples (λ pv t, for_fold (enumerate t) add_possible_value pv)
             possible_values ;
  is_assigned <~
    list_comp (seq 0 (length variables)) (λ i,
      list_comp (range (max_value + 1)) (λ j,
        NewBoolVar ("is_assigned[" +:+ pretty i +:+ "][" +:+ pretty j +:+ "]"))) ;
  _ <~ for_each (seq 0 (length variables)) (λ i,
    for_each (range (max_value + 1)) (λ j,
      s <~ dict_get possible_values i ;
      if decide (j ∈ s) then ret tt
      else
        row <~ getitem is_assigned i ;
        x <~ getitem_int row j ;
        ct <~ Add (Term x) 0 ;
        OnlyEnforceIf ct option)) ;
  _ <~ for_each is_assigned (λ i,
    ct <~ Add (Sum i) 1 ;
    OnlyEnforceIf ct option) ;
  _ <~ for_each (seq 0 (length variables)) (λ i,
    for_each (range (max_value + 1)) (λ j,
      v <~ getitem variables i ;
      ct <~ Add (Term v) j ;
      row <~ getitem is_assigned i ;
      x <~ getitem_int row j ;
      OnlyEnforceIf ct x)) ;
  _ <~ for_each (enumerate tuples) (λ it,
    lits <~ list_comp (seq 0 (length it.2)) (λ j,
              row <~ getitem is_assigned j ;
              tj <~ getitem it.2 j ;
              getitem_int row tj) ;
    ct <~ AddBoolAnd lits ;
    bi <~ getitem b it.1 ;
    OnlyEnforceIf ct bi) ;
  ct <~ Add (Sum b) 1 ;
  _ <~ OnlyEnforceIf ct option ;
  ret (b, is_assigned).

Definition table_optional (variables tuples option : pyval) : M unit :=
  args <~ check_arguments variables tuples option ;
  _ <~ encode args.1.1 args.1.2 args.2 ;
  ret tt.

(** Typed arguments as the Python values that carry them. *)
Definition py_variables (vs : list IntVar) : pyval := PyList (PyIntVar <$> vs).
Definition py_tuples (ts : list (list Z)) : pyval :=
  PyList ((λ t, PyTuple (PyInt <$> t)) <$> ts).

(** ** The demonstration under [__main__], lines 76-95 *)

Definition demo_tuples : list (list Z) :=
  [[0; 1; 2; 3; 4]; [5; 6; 7; 8; 9]]%Z.

(** Lines 76-86: the model, the variables [v] and the option [b]. *)
Definition main_declarations : M (list IntVar * IntVar) :=
  v <~ list_comp (seq 0 5) (λ i, NewIntVar 0 10 ("v[" +:+ pretty i +:+ "]")) ;
  b <~ NewBoolVar "b" ;
  ret (v, b).

(** Lines 76-95: the model handed to the solver; [v] is returned to read the
    solution. *)
Definition main : M (list IntVar) :=
  vb <~ main_declarations ;
  let t := demo_tuples in
  _ <~ table_optional (py_variables vb.1) (py_tuples t) (PyIntVar vb.2) ;
  _ <~ Minimize (Sum vb.1) ;
  ct <~ Add (Term vb.2) 1 ;
  ret vb.1.

Definition demo_model : CpModel := (main_declarations empty_model).1.
Definition demo_variables : list IntVar := mkIntVar <$> seq 0 5.
Definition demo_option : IntVar := mkIntVar 5.

(** ** Meaning of a model *)

(** An assignment gives every variable index a value. *)
Definition Assignment := nat → Z.

Definition value (a : Assignment) (v : IntVar) : Z := a (Index v).

(** A literal is true when its variable is 1. *)
Definition literal_true (a : Assignment) (v : IntVar) : bool :=
  bool_decide (value a v = 1%Z).

Definition sum_values (a : Assignment) (vs : list IntVar) : Z :=
  foldr Z.add 0%Z (value a <$> vs).

Definition eval (a : Assignment) (e : LinearExpr) : Z :=
  match e with
  | Term v => value a v
  | Sum vs => sum_values a vs
  end.

Definition body_holds (a : Assignment) (b : ConstraintBody) : bool :=
  match b with
  | LinearEq e k => bool_decide (eval a e = k)
  | BoolAnd lits => forallb (literal_true a) lits
  end.

(** A constraint binds only when all its enforcement literals are true. *)
Definition constraint_holds (a : Assignment) (c : Constraint) : bool :=
  implb (forallb (literal_true a) (enforcement_literal c)) (body_holds a (body c)).

Definition in_domain (a : Assignment) (i : nat) (x : IntegerVariable) : bool :=
  bool_decide (var_lb x ≤ a i ≤ var_ub x)%Z.

(** What a call added to the model [m], giving [m']. *)
Definition new_variables (m m' : CpModel) : list (nat * IntegerVariable) :=
  drop (length (model_variables m)) (imap pair (model_variables m')).

Definition new_constraints (m m' : CpModel) : list Constraint :=
  drop (length (model_constraints m)) (model_constraints m').

(** [a] respects the domains of the variables and satisfies the constraints
    added between [m] and [m']. *)
Definition satisfies_emitted (a : Assignment) (m m' : CpModel) : bool :=
  forallb (λ ix, in_domain a ix.1 ix.2) (new_variables m m')
  && forallb (constraint_holds a) (new_constraints m m').

(** A solution of the whole model. *)
Definition feasible (a : Assignment) (m : CpModel) : bool :=
  satisfies_emitted a empty_model m.

Definition objective_value (a : Assignment) (m : CpModel) : Z :=
  match model_objective m with
  | Some e => eval a e
  | None => 0%Z
  end.

(** A solution the engine may report after [Minimize]. *)
Definition optimal (a : Assignment) (m : CpModel) : Prop :=
  feasible a m = true ∧
  ∀ a', feasible a' m = true → (objective_value a m ≤ objective_value a' m)%Z.

(** A variable of the model with the domain of a Boolean. *)
Definition is_boolean (m : CpModel) (v : IntVar) : bool :=
  match model_variables m !! Index v with
  | Some x => bool_decide (var_lb x = 0%Z ∧ var_ub x = 1%Z)
  | None => false
  end.

Definition belongs_to (m : CpModel) (v : IntVar) : Prop :=
  Index v < length (model_variables m).

(** The assignment [a0] kept on the variables of [m], every later variable
    set to 0. *)
Definition auxiliaries_false (m : CpModel) (a0 : Assignment) : Assignment :=
  λ i, if decide (i < length (model_variables m)) then a0 i else 0%Z.

(** Assignments on the demonstration model: variable [i < 5] is [v[i]],
    5 is the option, 6 and 7 are [b[0]] and [b[1]], and [8 + 10 * i + j] is
    [is_assigned[i][j]]. *)
Definition demo_solution : Assignment :=
  λ i, if decide (i < 5) then Z.of_nat i
       else if decide (i < 7) then 1%Z
       else if decide (i = 7) then 0%Z
       else if decide ((i - 8) mod 10 = (i - 8) / 10) then 1%Z else 0%Z.

(** The option false and the variables on no tuple. *)
Definition demo_disabled : Assignment :=
  λ i, if decide (i < 5) then 7%Z else 0%Z.

(** A model with two variables [x], [y] in [0, 10] and a Boolean [o]. *)
Definition small_model : CpModel :=
  mkModel [mkVar "x" 0 10; mkVar "y" 0 10; mkVar "o" 0 1] [] None.

Definition small_variables : pyval := PyList [PyIntVar (mkIntVar 0); PyIntVar (mkIntVar 1)].

Definition small_option : pyval := PyIntVar (mkIntVar 2).

(** A tuple with a negative value. *)
Definition negative_tuples : pyval := PyList [PyTuple [PyInt 0; PyInt (-1)]].

(** A second tuple shorter, and longer, than [variables]. *)
Definition short_tuples : pyval :=
  PyList [PyTuple [PyInt 0; PyInt 1]; PyTuple [PyInt 2]].

Definition long_tuples : pyval :=
  PyList [PyTuple [PyInt 0; PyInt 1]; PyTuple [PyInt 1; PyInt 2; PyInt 3]].

(** ** Arguments *)

(** Python values that pass the assertions as [vs], [ts]. *)
Definition is_variables (x : pyval) (vs : list IntVar) : Prop :=
  ∃ items, as_sequence x = Some items ∧ Forall2 (λ it v, as_IntVar it = Some v) items vs.

Definition is_tuple (x : pyval) (t : list Z) : Prop :=
  ∃ items, as_sequence x = Some items ∧ Forall2 (λ it z, as_int it = Some z) items t.

Definition is_tuples (x : pyval) (ts : list (list Z)) : Prop :=
  ∃ items, as_sequence x = Some items ∧ Forall2 is_tuple items ts.

(** The preconditions: a variable group of length N ≥ 1 and a non-empty set
    of tuples of length N of nonnegative integers. *)
Definition valid_input (vs : list IntVar) (ts : list (list Z)) : Prop :=
  vs ≠ [] ∧ ts ≠ [] ∧
  Forall (λ t, length t = length vs ∧ Forall (λ z, 0 ≤ z)%Z t) ts.

(** What the assertions establish: as [valid_input], but the length is checked
    on the first tuple only. *)
Definition accepted_input (vs : list IntVar) (ts : list (list Z)) : Prop :=
  vs ≠ [] ∧ ts ≠ [] ∧
  (∃ t0, ts !! 0 = Some t0 ∧ length t0 = length vs) ∧
  Forall (Forall (λ z, 0 ≤ z)%Z) ts.

(** The assertions as a function of the arguments alone. *)
Definition as_nonnegative (x : pyval) : option Z :=
  z ← as_int x; if (0 <=? z)%Z then Some z else None.

Definition as_tuple (x : pyval) : option (list Z) :=
  items ← as_sequence x; mapM as_nonnegative items.

Definition checked (variables tuples option : pyval)
  : Datatypes.option (list IntVar * list (list Z) * IntVar) :=
  vs ← as_sequence variables;
  if 0 <? length vs then
    vars ← mapM as_IntVar vs;
    ts ← as_sequence tuples;
    if 0 <? length ts then
      tups ← mapM as_tuple ts;
      t0 ← tups !! 0;
      if length vars =? length t0 then
        opt ← as_IntVar option;
        Some (vars, tups, opt)
      else None
    else None
  else None.

(** ** The model after a successful call, in closed form *)

Definition add_variables (m : CpModel) (xs : list IntegerVariable) : CpModel :=
  mkModel (model_variables m ++ xs) (model_constraints m) (model_objective m).

Definition add_constraints (m : CpModel) (cs : list Constraint) : CpModel :=
  mkModel (model_variables m) (model_constraints m ++ cs) (model_objective m).

Definition max_of (l : list Z) : Z :=
  match l with
  | [] => 0%Z
  | x :: l' => foldl Z.max x l'
  end.

(** The dict [possible_values] after the loop of lines 42-44. *)
Definition record_value (pv : gmap nat (gset Z)) (ij : nat * Z) : gmap nat (gset Z) :=
  <[ij.1 := default ∅ (pv !! ij.1) ∪ {[ij.2]}]> pv.

Definition possible_values_of (n : nat) (tuples : list (list Z)) : gmap nat (gset Z) :=
  foldl (λ pv t, foldl record_value pv (enumerate t))
        (list_to_map ((λ i, (i, ∅)) <$> seq 0 n)) tuples.

Section Encoded.
Variables (m : CpModel) (variables : list IntVar) (tuples : list (list Z))
          (option : IntVar).

Definition max_value_of : Z := max_of (max_of <$> tuples).

(** Number of values per position, [max_value + 1]. *)
Definition width : nat := Z.to_nat (max_value_of + 1).

(** The handle [b[k]]. *)
Definition b_var (k : nat) : IntVar :=
  mkIntVar (length (model_variables m) + k).

(** The handle [is_assigned[i][j]]. *)
Definition is_assigned_var (i j : nat) : IntVar :=
  mkIntVar (length (model_variables m) + length tuples + i * width + j).

Definition b_of : list IntVar := b_var <$> seq 0 (length tuples).

Definition is_assigned_of : list (list IntVar) :=
  (λ i, is_assigned_var i <$> seq 0 width) <$> seq 0 (length variables).

Definition b_declarations : list IntegerVariable :=
  (λ i, mkVar ("b[" +:+ pretty i +:+ "]") 0 1) <$> seq 0 (length tuples).

Definition is_assigned_declarations : list IntegerVariable :=
  i ← seq 0 (length variables);
  (λ j, mkVar ("is_assigned[" +:+ pretty i +:+ "][" +:+ pretty j +:+ "]") 0 1)
    <$> range (max_value_of + 1).

Definition pruning_constraints : list Constraint :=
  i ← seq 0 (length variables);
  j ← range (max_value_of + 1);
  if decide (j ∈ default ∅ (possible_values_of (length variables) tuples !! i))
  then []
  else [mkConstraint (LinearEq (Term (is_assigned_var i (Z.to_nat j))) 0) [option]].

Definition one_value_constraints : list Constraint :=
  (λ row, mkConstraint (LinearEq (Sum row) 1) [option]) <$> is_assigned_of.

Definition linking_constraints : list Constraint :=
  i ← seq 0 (length variables);
  match variables !! i with
  | Some v =>
      (λ j, mkConstraint (LinearEq (Term v) j) [is_assigned_var i (Z.to_nat j)])
        <$> range (max_value_of + 1)
  | None => []
  end.

Definition table_constraints : list Constraint :=
  imap (λ k t,
          mkConstraint
            (BoolAnd (imap (λ j tj, is_assigned_var j (Z.to_nat tj)) t))
            [b_var k])
       tuples.

Definition one_tuple_constraint : Constraint :=
  mkConstraint (LinearEq (Sum b_of) 1) [option].

Definition emitted_constraints : list Constraint :=
  pruning_constraints ++ one_value_constraints ++ linking_constraints
  ++ table_constraints ++ [one_tuple_constraint].

Definition encoded : CpModel :=
  add_constraints
    (add_variables m (b_declarations ++ is_assigned_declarations))
    emitted_constraints.
End Encoded.

(** ** Assignments for a model after a call *)

(** The assignment [a0] kept on the variables of [m]; among the auxiliaries
    declared after them, [b[k]] alone is true, and [is_assigned[i][j]] is true
    where [t[i]] is [j]. *)
Definition realize (m : CpModel) (tuples : list (list Z)) (k : nat) (t : list Z)
    (a0 : Assignment) : Assignment :=
  λ idx,
    if decide (idx < length (model_variables m)) then a0 idx
    else if decide (idx < length (model_variables m) + length tuples) then
      if decide (idx - length (model_variables m) = k) then 1%Z else 0%Z
    else
      let r := idx - length (model_variables m) - length tuples in
      if decide (t !! (r / width tuples) = Some (Z.of_nat (r mod width tuples)))
      then 1%Z else 0%Z.

(** The option true and the variables on the second tuple of the
    demonstration. *)
Definition demo_second : Assignment :=
  λ i, if decide (i < 5) then Z.of_nat (5 + i) else 1%Z.

(** The keys of the dict [possible_values] are the positions of
    [variables]. *)
Definition position_keys (n : nat) (pv : gmap nat (gset Z)) : Prop :=
  ∀ i, is_Some (pv !! i) ↔ i < n.

(** A second tuple that is empty. *)
Definition empty_tuple_tuples : pyval :=
  PyList [PyTuple [PyInt 0; PyInt 1]; PyTuple []].

(** The arguments on which the call returns: they pass the assertions and
    every tuple has between one and [len(variables)] values. *)
Definition fitting_input (vs : list IntVar) (ts : list (list Z)) : Prop :=
  accepted_input vs ts ∧ Forall (λ t, 0 < length t ≤ length vs) ts.

(** On [small_model] after a call with [short_tuples]: the option, [b[1]],
    [is_assigned[0][2]] and [is_assigned[1][1]] true, [x] = 2 and [y] = 1. *)
Definition short_solution : Assignment :=
  λ i, match i with
       | 0 => 2%Z
       | 1 | 2 | 4 | 7 | 9 => 1%Z
       | _ => 0%Z
       end.

(** [demo_solution] carried to the demonstration model after a second call,
    on the first tuple alone: 58 is its [b[0]] and [59 + 5 * i + j] its
    [is_assigned[i][j]]. *)
Definition demo_twice : Assignment :=
  λ i, if decide (i < 58) then demo_solution i
       else if decide (i = 58) then 1%Z
       else if decide ((i - 59) mod 5 = (i - 59) / 5) then 1%Z else 0%Z.

(** ** Running computations *)

Lemma bind_returns {A B} (c : M A) (k : A → M B) m m1 x :
  c m = (m1, inr x) → bind c k m = k x m1.
Proof. intros H. unfold bind. by rewrite H. Qed.

Lemma returned_value {A} (m1 m2 : CpModel) (x y : A) :
  (m1, inr x : exn + A) = (m2, inr y) → x = y.
Proof. by intros [= _ ->]. Qed.

Lemma bind_raises {A B} (c : M A) (k : A → M B) m m1 e :
  c m = (m1, inl e) → bind c k m = (m1, inl e).
Proof. intros H. unfold bind. by rewrite H. Qed.

Lemma add_variables_nil m : add_variables m [] = m.
Proof. destruct m. unfold add_variables. simpl. by rewrite app_nil_r. Qed.

Lemma add_constraints_nil m : add_constraints m [] = m.
Proof. destruct m. unfold add_constraints. simpl. by rewrite app_nil_r. Qed.

Lemma add_variables_app m xs ys :
  add_variables (add_variables m xs) ys = add_variables m (xs ++ ys).
Proof. unfold add_variables. simpl. by rewrite app_assoc. Qed.

Lemma add_constraints_app m cs ds :
  add_constraints (add_constraints m cs) ds = add_constraints m (cs ++ ds).
Proof. unfold add_constraints. simpl. by rewrite app_assoc. Qed.

(** A loop whose body appends the constraints [g x]. *)
Lemma for_each_emits {A} (g : A → list Constraint) (l : list A) (f : A → M unit) :
  (∀ x m, x ∈ l → f x m = (add_constraints m (g x), inr tt)) →
  ∀ m, for_each l f m = (add_constraints m (l ≫= g), inr tt).
Proof.
  induction l as [|x l IH]; intros Hf m; simpl.
  - by rewrite add_constraints_nil.
  - rewrite (bind_returns _ _ _ _ _ (Hf x m (list_elem_of_here _ _))).
    rewrite IH by (intros; apply Hf; by apply list_elem_of_further).
    by rewrite add_constraints_app.
Qed.

(** A comprehension whose body declares the variables [decl x], [w] of them,
    and returns a value that depends on the index of the first. *)
Lemma list_comp_declares {A B} (decl : A → list IntegerVariable) (w : nat)
    (res : nat → A → B) (l : list A) (f : A → M B) :
  (∀ x m, x ∈ l →
     f x m = (add_variables m (decl x), inr (res (length (model_variables m)) x))) →
  (∀ x, x ∈ l → length (decl x) = w) →
  ∀ m, list_comp l f m =
       (add_variables m (l ≫= decl),
        inr (imap (λ k x, res (length (model_variables m) + k * w) x) l)).
Proof.
  induction l as [|x l IH]; intros Hf Hw m; simpl.
  - by rewrite add_variables_nil.
  - rewrite (bind_returns _ _ _ _ _ (Hf x m (list_elem_of_here _ _))).
    rewrite (bind_returns _ _ _ _ _
               (IH (λ y m Hy, Hf y m (list_elem_of_further _ _ _ Hy))
                   (λ y Hy, Hw y (list_elem_of_further _ _ _ Hy)) _)).
    unfold ret. rewrite add_variables_app. do 3 f_equal.
    + f_equal. lia.
    + apply imap_ext. intros k y _. simpl. f_equal.
      rewrite length_app, (Hw x) by apply list_elem_of_here. lia.
Qed.

(** A comprehension whose body only computes. *)
Lemma list_comp_pure {A B} (g : A → B) (l : list A) (f : A → M B) :
  (∀ x m, x ∈ l → f x m = (m, inr (g x))) →
  ∀ m, list_comp l f m = (m, inr (g <$> l)).
Proof.
  induction l as [|x l IH]; intros Hf m; simpl; [done|].
  rewrite (bind_returns _ _ _ _ _ (Hf x m (list_elem_of_here _ _))).
  by rewrite (bind_returns _ _ _ _ _
               (IH (λ y m Hy, Hf y m (list_elem_of_further _ _ _ Hy)) _)).
Qed.

(** A comprehension whose body only asserts. *)
Lemma list_comp_asserts {A B} (g : A → Datatypes.option B) (l : list A) (f : A → M B) :
  (∀ x m, f x m = assert_isinstance (g x) m) →
  ∀ m, list_comp l f m = assert_isinstance (mapM g l) m.
Proof.
  intros Hf. induction l as [|x l IH]; intros m; simpl; [done|].
  unfold bind at 1. rewrite Hf. destruct (g x) as [y|]; simpl; [|done].
  unfold bind. rewrite IH. by destruct (mapM g l).
Qed.

(** A loop on a local that only computes, while [P] holds of the local. *)
Lemma for_fold_pure {A S} (P : S → Prop) (g : S → A → S) (l : list A)
    (f : S → A → M S) :
  (∀ s x m, x ∈ l → P s → f s x m = (m, inr (g s x)) ∧ P (g s x)) →
  ∀ s m, P s → for_fold l f s m = (m, inr (foldl g s l)) ∧ P (foldl g s l).
Proof.
  induction l as [|x l IH]; intros Hf s m Hs; simpl; [done|].
  destruct (Hf s x m (list_elem_of_here _ _) Hs) as [Hx HP].
  rewrite (bind_returns _ _ _ _ _ Hx).
  apply IH; [|done]. intros s' y m' Hy. apply Hf. by apply list_elem_of_further.
Qed.

(** ** The assertions *)

Lemma check_arguments_checked variables tuples option m :
  check_arguments variables tuples option m
  = assert_isinstance (checked variables tuples option) m.
Proof.
  unfold check_arguments, checked.
  destruct (as_sequence variables) as [vs|]; simpl; [|done].
  unfold bind at 1; simpl. unfold bind at 1.
  destruct (0 <? length vs); simpl; [|done].
  unfold bind at 1. rewrite (list_comp_asserts as_IntVar) by done.
  destruct (mapM as_IntVar vs) as [vars|]; simpl; [|done].
  destruct (as_sequence tuples) as [ts|]; simpl; [|done].
  unfold bind at 1; simpl. unfold bind at 1.
  destruct (Nat.ltb_spec 0 (length ts)) as [Hts|]; simpl; [|done].
  unfold bind at 1. rewrite (list_comp_asserts as_tuple).
  - destruct (mapM as_tuple ts) as [tups|] eqn:Htups; simpl; [|done].
    unfold bind at 1, getitem.
    destruct tups as [|t0 tups]; simpl.
    { (* excluded by the assertion on [len(tuples)] *)
      apply mapM_Some, Forall2_length in Htups. simpl in Htups. lia. }
    unfold bind at 1.
    destruct (length vars =? length t0); simpl; [|done].
    unfold bind. by destruct (as_IntVar option).
  - intros t m'. unfold as_tuple.
    destruct (as_sequence t) as [items|]; simpl; [|done].
    unfold bind at 1; simpl.
    apply list_comp_asserts. intros i m''. unfold as_nonnegative.
    destruct (as_int i) as [z|]; simpl; [|done].
    unfold bind at 1; simpl. unfold bind.
    by destruct (0 <=? z)%Z.
Qed.

Lemma as_nonnegative_Some x z :
  as_nonnegative x = Some z ↔ as_int x = Some z ∧ (0 ≤ z)%Z.
Proof.
  unfold as_nonnegative. destruct (as_int x) as [z'|]; simpl; [|naive_solver].
  destruct (Z.leb_spec 0 z'); naive_solver lia.
Qed.

Lemma as_tuple_Some x t :
  as_tuple x = Some t ↔ is_tuple x t ∧ Forall (λ z, 0 ≤ z)%Z t.
Proof.
  unfold as_tuple, is_tuple. destruct (as_sequence x) as [items|]; simpl.
  - rewrite mapM_Some. split.
    + intros H. split.
      * exists items. split; [done|]. eapply Forall2_impl; [done|].
        intros ?? ?%as_nonnegative_Some. tauto.
      * induction H as [|?? ?? ?%as_nonnegative_Some]; constructor; tauto.
    + intros [(items' & [= <-] & H) Hpos].
      induction H as [|i z is' t' Hi H IH]; [constructor|].
      apply Forall_cons in Hpos as [??]. constructor; [|auto].
      by apply as_nonnegative_Some.
  - split; [done|]. by intros [(? & ? & _) _].
Qed.

Lemma mapM_as_tuple_Some items ts :
  mapM as_tuple items = Some ts
  ↔ Forall2 is_tuple items ts ∧ Forall (Forall (λ z, 0 ≤ z)%Z) ts.
Proof.
  rewrite mapM_Some. split.
  - intros H. induction H as [|?? ?? ?%as_tuple_Some ? [??]]; split; constructor; tauto.
  - intros [H Hpos]. induction H as [|x t ?? Hx H IH]; [constructor|].
    apply Forall_cons in Hpos as [??]. constructor; [|auto].
    by apply as_tuple_Some.
Qed.

(** The assertions pass exactly on the accepted inputs. *)
Lemma checked_Some variables tuples option vs ts opt :
  checked variables tuples option = Some (vs, ts, opt)
  ↔ is_variables variables vs ∧ is_tuples tuples ts
    ∧ as_IntVar option = Some opt ∧ accepted_input vs ts.
Proof.
  unfold checked, is_variables, is_tuples, accepted_input. split.
  - destruct (as_sequence variables) as [vitems|]; simpl; [|done].
    destruct (Nat.ltb_spec 0 (length vitems)) as [Hv|]; [|done].
    destruct (mapM as_IntVar vitems) as [vars|] eqn:Hvars; simpl; [|done].
    destruct (as_sequence tuples) as [titems|]; simpl; [|done].
    destruct (Nat.ltb_spec 0 (length titems)) as [Ht|]; [|done].
    destruct (mapM as_tuple titems) as [tups|] eqn:Htups; simpl; [|done].
    destruct (tups !! 0) as [t0|] eqn:Ht0; simpl; [|done].
    destruct (Nat.eqb_spec (length vars) (length t0)) as [Hlen|]; [|done].
    destruct (as_IntVar option) as [o|]; simpl; [|done].
    intros [= <- <- <-].
    apply mapM_Some in Hvars. apply mapM_as_tuple_Some in Htups as [Htups Hpos].
    pose proof (Forall2_length _ _ _ Hvars).
    split_and!; eauto.
    + intros ->. simpl in *. lia.
    + by intros ->.
  - intros ((vitems & -> & Hvars) & (titems & -> & Htups) & -> & Hne & Htne & (t0 & Ht0 & Hlen) & Hpos).
    simpl. pose proof (Forall2_length _ _ _ Hvars). pose proof (Forall2_length _ _ _ Htups).
    destruct (Nat.ltb_spec 0 (length vitems)); [|destruct vs; simpl in *; [done|lia]].
    apply mapM_Some in Hvars. rewrite Hvars. simpl.
    destruct (Nat.ltb_spec 0 (length titems)); [|destruct ts; simpl in *; [done|lia]].
    rewrite (proj2 (mapM_as_tuple_Some titems ts)) by done. simpl.
    rewrite Ht0. simpl. rewrite Hlen, Nat.eqb_refl. done.
Qed.

Lemma valid_input_accepted vs ts : valid_input vs ts → accepted_input vs ts.
Proof.
  intros (Hv & Ht & Hall). split_and!; [done..| |].
  - destruct ts as [|t0 ts]; [done|]. exists t0. split; [done|].
    by apply Forall_cons in Hall as [[? _] _].
  - eapply Forall_impl; [done|]. by intros ? [_ ?].
Qed.

(** The assertions leave the model alone, and fail with [AssertionError]. *)
Lemma table_optional_rejects variables tuples option m :
  checked variables tuples option = None →
  table_optional variables tuples option m = (m, inl AssertionError).
Proof.
  intros H. unfold table_optional.
  apply bind_raises. by rewrite check_arguments_checked, H.
Qed.

Lemma table_optional_encodes variables tuples option vs ts opt m :
  checked variables tuples option = Some (vs, ts, opt) →
  table_optional variables tuples option m
  = match encode vs ts opt m with
    | (m', inr _) => (m', inr tt)
    | (m', inl e) => (m', inl e)
    end.
Proof.
  intros H. unfold table_optional.
  erewrite bind_returns by (by rewrite check_arguments_checked, H).
  simpl. unfold bind. by destruct (encode vs ts opt m) as [? [|]].
Qed.

(** ** The locals of [encode] *)

Lemma foldl_max_le (l : list Z) (x : Z) :
  (x ≤ foldl Z.max x l)%Z ∧ Forall (λ z, z ≤ foldl Z.max x l)%Z l.
Proof.
  revert x. induction l as [|y l IH]; intros x; simpl; [by split|].
  destruct (IH (Z.max x y)) as [H1 H2]. split; [lia|].
  constructor; [lia|done].
Qed.

Lemma max_of_le (l : list Z) z : z ∈ l → (z ≤ max_of l)%Z.
Proof.
  destruct l as [|x l]; [by intros ?%elem_of_nil|]. simpl.
  destruct (foldl_max_le l x) as [H1 H2].
  intros [->|Hz]%elem_of_cons; [done|].
  by eapply Forall_forall in H2.
Qed.

Lemma max_value_of_le (tuples : list (list Z)) t z :
  t ∈ tuples → z ∈ t → (z ≤ max_value_of tuples)%Z.
Proof.
  intros Ht Hz. unfold max_value_of.
  etrans; [by apply max_of_le|].
  apply max_of_le, list_elem_of_fmap. eauto.
Qed.

Lemma py_max_returns (l : list Z) m : l ≠ [] → py_max l m = (m, inr (max_of l)).
Proof. by destruct l. Qed.

Lemma record_value_lookup pv ij i :
  default ∅ (record_value pv ij !! i)
  = if decide (ij.1 = i) then default ∅ (pv !! i) ∪ {[ij.2]} else default ∅ (pv !! i).
Proof.
  unfold record_value. case_decide as Hi.
  - subst i. by rewrite lookup_insert_eq.
  - by rewrite lookup_insert_ne.
Qed.

Lemma foldl_record_value l pv i j :
  j ∈ default ∅ (foldl record_value pv l !! i)
  ↔ j ∈ default ∅ (pv !! i) ∨ (i, j) ∈ l.
Proof.
  revert pv. induction l as [|[i' j'] l IH]; intros pv; simpl.
  - rewrite elem_of_nil. tauto.
  - rewrite IH, record_value_lookup, elem_of_cons. simpl.
    case_decide; [subst; rewrite elem_of_union, elem_of_singleton|]; naive_solver.
Qed.

Lemma elem_of_enumerate {A} (t : list A) i x :
  (i, x) ∈ enumerate t ↔ t !! i = Some x.
Proof. unfold enumerate. rewrite elem_of_lookup_imap. naive_solver. Qed.

Lemma initial_possible_values n i (j : Z) :
  j ∉ default (∅ : gset Z)
        ((list_to_map ((λ i, (i, ∅)) <$> seq 0 n) : gmap nat (gset Z)) !! i).
Proof.
  destruct (_ !! i) as [s|] eqn:Hs; simpl; [|set_solver].
  apply elem_of_list_to_map_2, list_elem_of_fmap in Hs as (? & [= _ ->] & _).
  set_solver.
Qed.

Lemma initial_possible_values_dom n i :
  i < n →
  is_Some ((list_to_map ((λ i, (i, ∅)) <$> seq 0 n) : gmap nat (gset Z)) !! i).
Proof.
  intros Hi. destruct (_ !! i) eqn:Hs; [done|].
  apply not_elem_of_list_to_map_2 in Hs. destruct Hs.
  rewrite <- list_fmap_compose. apply list_elem_of_fmap. exists i.
  split; [done|]. apply elem_of_seq. lia.
Qed.

(** What [possible_values[i]] holds: the values found at position [i]. *)
Lemma possible_values_of_spec n tuples i j :
  j ∈ default ∅ (possible_values_of n tuples !! i)
  ↔ ∃ t, t ∈ tuples ∧ t !! i = Some j.
Proof.
  unfold possible_values_of.
  generalize (initial_possible_values n i j).
  generalize (list_to_map ((λ i, (i, ∅)) <$> seq 0 n) : gmap nat (gset Z)).
  induction tuples as [|t tuples IH] using rev_ind; intros pv Hpv; simpl.
  - split; [done|]. by intros (? & ?%elem_of_nil & _).
  - rewrite foldl_app. simpl. rewrite foldl_record_value, elem_of_enumerate.
    rewrite IH by done. setoid_rewrite elem_of_app.
    setoid_rewrite list_elem_of_singleton. naive_solver.
Qed.

(** On valid input the loop of lines 42-44 raises no [KeyError], and every
    position keeps its key. *)
Lemma possible_values_loop n tuples m :
  Forall (λ t : list Z, length t = n) tuples →
  for_fold tuples (λ pv t, for_fold (enumerate t) add_possible_value pv)
           (list_to_map ((λ i, (i, ∅)) <$> seq 0 n)) m
  = (m, inr (possible_values_of n tuples))
  ∧ ∀ i, i < n → is_Some (possible_values_of n tuples !! i).
Proof.
  intros Hlen. unfold possible_values_of.
  eapply (for_fold_pure (λ pv : gmap nat (gset Z), ∀ i, i < n → is_Some (pv !! i))).
  - intros pv t m' Ht Hpv.
    eapply Forall_forall in Hlen; [|done].
    apply (for_fold_pure (λ pv : gmap nat (gset Z), ∀ i, i < n → is_Some (pv !! i)));
      [|done].
    intros pv' [i j] m'' Hij%elem_of_enumerate Hpv'.
    apply lookup_lt_Some in Hij. rewrite Hlen in Hij.
    split.
    + unfold add_possible_value, record_value, dict_get. simpl.
      destruct (Hpv' i Hij) as [s Hs]. unfold bind. by rewrite Hs.
    + intros i' Hi'. unfold record_value. simpl.
      apply lookup_insert_is_Some'. auto.
  - apply initial_possible_values_dom.
Qed.

(** ** The steps of [encode] *)

Lemma bind_singleton {A B} (f : A → B) (l : list A) : l ≫= (λ x, [f x]) = f <$> l.
Proof. induction l as [|x l IH]; [done|]. csimpl. by rewrite IH. Qed.

Lemma enumerate_bind_singleton {A B} (g : nat → A → B) (l : list A) :
  enumerate l ≫= (λ it, [g it.1 it.2]) = imap g l.
Proof.
  rewrite bind_singleton. unfold enumerate. rewrite fmap_imap. by apply imap_ext.
Qed.

Lemma getitem_returns {A} (l : list A) i x : l !! i = Some x → getitem l i = ret x.
Proof. intros H. unfold getitem. by rewrite H. Qed.

Lemma getitem_int_returns {A} (l : list A) (z : Z) x :
  (0 ≤ z)%Z → l !! Z.to_nat z = Some x → getitem_int l z = ret x.
Proof.
  intros Hz H. unfold getitem_int.
  destruct (Z.ltb_spec z 0); [lia|]. destruct (Z.ltb_spec z 0); [lia|].
  by apply getitem_returns.
Qed.

(** [model.Add(...).OnlyEnforceIf(lit)] and [model.AddBoolAnd(...).OnlyEnforceIf(lit)] *)
Lemma add_constraint_enforced (b : ConstraintBody) (lit : IntVar) m :
  (ct <~ add_constraint b ; OnlyEnforceIf ct lit) m
  = (add_constraints m [mkConstraint b [lit]], inr tt).
Proof.
  unfold bind, add_constraint, OnlyEnforceIf, add_constraints. simpl.
  by rewrite alter_app_r_alt, Nat.sub_diag by done.
Qed.

Lemma enforce_last (b : ConstraintBody) (lit : IntVar) m :
  OnlyEnforceIf (length (model_constraints m)) lit
    (mkModel (model_variables m) (model_constraints m ++ [mkConstraint b []])
             (model_objective m))
  = (add_constraints m [mkConstraint b [lit]], inr tt).
Proof.
  unfold OnlyEnforceIf, add_constraints. simpl.
  by rewrite alter_app_r_alt, Nat.sub_diag by done.
Qed.

(** Line 37. *)
Lemma declare_b tuples m :
  list_comp (seq 0 (length tuples)) (λ i, NewBoolVar ("b[" +:+ pretty i +:+ "]")) m
  = (add_variables m (b_declarations tuples), inr (b_of m tuples)).
Proof.
  rewrite (list_comp_declares (λ i, [mkVar ("b[" +:+ pretty i +:+ "]") 0 1]) 1
             (λ n _, mkIntVar n)) by done.
  unfold b_declarations, b_of. rewrite bind_singleton, imap_seq_0, length_seq.
  do 2 f_equal. apply list_fmap_ext. intros _ k _. unfold b_var. f_equal. lia.
Qed.

(** Lines 47-49, on a model that already holds the [b[k]]. *)
Lemma declare_is_assigned m variables tuples m1 :
  length (model_variables m1) = length (model_variables m) + length tuples →
  list_comp (seq 0 (length variables)) (λ i,
    list_comp (range (max_value_of tuples + 1)) (λ j,
      NewBoolVar ("is_assigned[" +:+ pretty i +:+ "][" +:+ pretty j +:+ "]"))) m1
  = (add_variables m1 (is_assigned_declarations variables tuples),
     inr (is_assigned_of m variables tuples)).
Proof.
  intros Hm1.
  rewrite (list_comp_declares
             (λ i, (λ j, mkVar ("is_assigned[" +:+ pretty i +:+ "][" +:+ pretty j +:+ "]") 0 1)
                     <$> range (max_value_of tuples + 1))
             (width tuples)
             (λ n _, (λ j, mkIntVar (n + j)) <$> seq 0 (width tuples))).
  - unfold is_assigned_of. rewrite imap_seq_0, length_seq.
    do 2 f_equal. apply list_fmap_ext. intros _ i _.
    apply list_fmap_ext. intros _ j _. unfold is_assigned_var. f_equal. lia.
  - intros i m' _.
    rewrite (list_comp_declares
               (λ j, [mkVar ("is_assigned[" +:+ pretty i +:+ "][" +:+ pretty j +:+ "]") 0 1])
               1 (λ n _, mkIntVar n)) by done.
    rewrite bind_singleton, imap_seq_0. unfold range at 2. rewrite length_seqZ.
    do 2 f_equal. apply list_fmap_ext. intros _ j _. f_equal. lia.
  - intros i _. unfold range. by rewrite length_fmap, length_seqZ.
Qed.

Section Lookups.
Variables (m : CpModel) (variables : list IntVar) (tuples : list (list Z)).

Lemma b_of_lookup k :
  k < length tuples → b_of m tuples !! k = Some (b_var m k).
Proof.
  intros Hk. unfold b_of. by rewrite list_lookup_fmap, lookup_seq_lt.
Qed.

Lemma is_assigned_of_lookup i :
  i < length variables →
  is_assigned_of m variables tuples !! i
  = Some (is_assigned_var m tuples i <$> seq 0 (width tuples)).
Proof.
  intros Hi. unfold is_assigned_of. by rewrite list_lookup_fmap, lookup_seq_lt.
Qed.

Lemma is_assigned_row_lookup i (j : Z) :
  (0 ≤ j < max_value_of tuples + 1)%Z →
  (is_assigned_var m tuples i <$> seq 0 (width tuples)) !! Z.to_nat j
  = Some (is_assigned_var m tuples i (Z.to_nat j)).
Proof.
  intros Hj. rewrite list_lookup_fmap, lookup_seq_lt; [done|].
  unfold width. lia.
Qed.

Lemma elem_of_range (n j : Z) : j ∈ range n ↔ (0 ≤ j < n)%Z.
Proof. unfold range. rewrite elem_of_seqZ. lia. Qed.
End Lookups.

Lemma bind_ret {A B} (x : A) (k : A → M B) m : bind (ret x) k m = k x m.
Proof. done. Qed.

(** A comprehension over [range(len(t))] that reads [t[j]]. *)
Lemma list_comp_indices_from {A B} (t : list A) (h : nat → A → B) (f : nat → M B) s m :
  (∀ j x m, t !! j = Some x → f (s + j) m = (m, inr (h j x))) →
  list_comp (seq s (length t)) f m = (m, inr (imap h t)).
Proof.
  revert h s. induction t as [|x t IH]; intros h s Hf; simpl; [done|].
  erewrite bind_returns by (rewrite <- (Nat.add_0_r s) at 1; by apply Hf).
  erewrite bind_returns; [done|].
  apply (IH (h ∘ S)). intros j y m' Hj.
  rewrite Nat.add_succ_comm. by apply Hf.
Qed.

Lemma list_comp_indices {A B} (h : nat → A → B) (t : list A) (f : nat → M B) m :
  (∀ j x m, t !! j = Some x → f j m = (m, inr (h j x))) →
  list_comp (seq 0 (length t)) f m = (m, inr (imap h t)).
Proof. intros Hf. by apply list_comp_indices_from. Qed.

Section Loops.
Variables (m : CpModel) (variables : list IntVar) (tuples : list (list Z))
          (option : IntVar).
Hypothesis Hvalid : valid_input variables tuples.

Lemma tuple_lengths : Forall (λ t : list Z, length t = length variables) tuples.
Proof.
  destruct Hvalid as (_ & _ & H). eapply Forall_impl; [done|]. by intros ? [? _].
Qed.

Lemma tuple_value_range t j tj :
  t ∈ tuples → t !! j = Some tj →
  j < length variables ∧ (0 ≤ tj < max_value_of tuples + 1)%Z.
Proof.
  intros Ht Hj. destruct Hvalid as (_ & _ & H).
  eapply Forall_forall in H as [Hlen Hpos]; [|done].
  split; [rewrite <- Hlen; by eapply lookup_lt_Some|].
  assert (tj ∈ t) by by eapply list_elem_of_lookup_2.
  split; [by eapply Forall_forall in Hpos|].
  assert (tj ≤ max_value_of tuples)%Z by by eapply max_value_of_le. lia.
Qed.

(** Lines 52-55. *)
Lemma pruning_loop m' :
  for_each (seq 0 (length variables)) (λ i,
    for_each (range (max_value_of tuples + 1)) (λ j,
      s <~ dict_get (possible_values_of (length variables) tuples) i ;
      if decide (j ∈ s) then ret tt
      else
        row <~ getitem (is_assigned_of m variables tuples) i ;
        x <~ getitem_int row j ;
        ct <~ Add (Term x) 0 ;
        OnlyEnforceIf ct option)) m'
  = (add_constraints m' (pruning_constraints m variables tuples option), inr tt).
Proof.
  apply for_each_emits. intros i m1 Hi%elem_of_seq.
  apply for_each_emits. intros j m2 Hj%elem_of_range.
  destruct (possible_values_loop _ _ m tuple_lengths) as [_ Hdom].
  destruct (Hdom i) as [s Hs]; [lia|].
  assert (i < length variables) as Hlt by lia.
  assert (0 ≤ j)%Z as Hj0 by lia.
  unfold dict_get. rewrite Hs, bind_ret. simpl.
  case_decide; [by rewrite add_constraints_nil|].
  rewrite (getitem_returns _ _ _ (is_assigned_of_lookup m variables tuples i Hlt)).
  rewrite bind_ret.
  rewrite (getitem_int_returns _ _ _ Hj0 (is_assigned_row_lookup m tuples i j Hj)).
  rewrite bind_ret. apply add_constraint_enforced.
Qed.

(** Lines 58-59. *)
Lemma one_value_loop m' :
  for_each (is_assigned_of m variables tuples) (λ i,
    ct <~ Add (Sum i) 1 ;
    OnlyEnforceIf ct option) m'
  = (add_constraints m' (one_value_constraints m variables tuples option), inr tt).
Proof.
  unfold one_value_constraints. rewrite <- bind_singleton.
  apply for_each_emits. intros row m1 _. apply add_constraint_enforced.
Qed.

(** Lines 62-64. *)
Lemma linking_loop m' :
  for_each (seq 0 (length variables)) (λ i,
    for_each (range (max_value_of tuples + 1)) (λ j,
      v <~ getitem variables i ;
      ct <~ Add (Term v) j ;
      row <~ getitem (is_assigned_of m variables tuples) i ;
      x <~ getitem_int row j ;
      OnlyEnforceIf ct x)) m'
  = (add_constraints m' (linking_constraints m variables tuples), inr tt).
Proof.
  apply for_each_emits. intros i m1 Hi%elem_of_seq.
  assert (i < length variables) as Hlt by lia.
  destruct (lookup_lt_is_Some_2 variables i Hlt) as [v Hv].
  rewrite Hv, <- bind_singleton.
  apply for_each_emits. intros j m2 Hj%elem_of_range.
  assert (0 ≤ j)%Z as Hj0 by lia.
  rewrite (getitem_returns _ _ _ Hv), bind_ret.
  rewrite (getitem_returns _ _ _ (is_assigned_of_lookup m variables tuples i Hlt)).
  unfold bind at 1, Add, add_constraint at 1. rewrite bind_ret.
  rewrite (getitem_int_returns _ _ _ Hj0 (is_assigned_row_lookup m tuples i j Hj)).
  rewrite bind_ret. apply enforce_last.
Qed.

(** Lines 67-68, with [b] as declared at line 37. *)
Lemma table_loop m' :
  for_each (enumerate tuples) (λ it,
    lits <~ list_comp (seq 0 (length it.2)) (λ j,
              row <~ getitem (is_assigned_of m variables tuples) j ;
              tj <~ getitem it.2 j ;
              getitem_int row tj) ;
    ct <~ AddBoolAnd lits ;
    bi <~ getitem (b_of m tuples) it.1 ;
    OnlyEnforceIf ct bi) m'
  = (add_constraints m' (table_constraints m tuples), inr tt).
Proof.
  unfold table_constraints. rewrite <- enumerate_bind_singleton.
  apply for_each_emits. intros [k t] m1 Hkt%elem_of_enumerate. simpl.
  assert (t ∈ tuples) as Ht by by eapply list_elem_of_lookup_2.
  erewrite bind_returns; cycle 1.
  { apply (list_comp_indices (λ j tj, is_assigned_var m tuples j (Z.to_nat tj))).
    intros j tj m2 Hj.
    destruct (tuple_value_range t j tj Ht Hj) as [Hlt Hrange].
    assert (0 ≤ tj)%Z as Hj0 by lia.
    rewrite (getitem_returns _ _ _ (is_assigned_of_lookup m variables tuples j Hlt)).
    rewrite bind_ret, (getitem_returns _ _ _ Hj), bind_ret.
    by rewrite (getitem_int_returns _ _ _ Hj0
                  (is_assigned_row_lookup m tuples j tj Hrange)). }
  rewrite (getitem_returns _ _ _ (b_of_lookup m tuples k (lookup_lt_Some _ _ _ Hkt))).
  unfold bind at 1, AddBoolAnd, add_constraint at 1. rewrite bind_ret.
  apply enforce_last.
Qed.
End Loops.

(** ** [encode] and [table_optional] on valid input *)

Lemma encode_returns m variables tuples option :
  valid_input variables tuples →
  encode variables tuples option m
  = (encoded m variables tuples option,
     inr (b_of m tuples, is_assigned_of m variables tuples)).
Proof.
  intros Hvalid. pose proof Hvalid as (Hv & Ht & Hall).
  unfold encode.
  erewrite bind_returns by apply declare_b. cbv zeta.
  erewrite bind_returns; cycle 1.
  { apply (list_comp_pure max_of). intros t m' Hin. apply py_max_returns.
    eapply Forall_forall in Hall as [Hlen _]; [|done].
    intros ->. by destruct variables. }
  erewrite bind_returns by (apply py_max_returns; by destruct tuples).
  change (max_of (max_of <$> tuples)) with (max_value_of tuples).
  erewrite bind_returns
    by (eapply proj1, possible_values_loop, tuple_lengths; done).
  erewrite bind_returns; cycle 1.
  { apply (declare_is_assigned m). simpl.
    unfold b_declarations. by rewrite length_app, length_fmap, length_seq. }
  erewrite bind_returns by by apply pruning_loop.
  erewrite bind_returns by by apply one_value_loop.
  erewrite bind_returns by by apply linking_loop.
  erewrite bind_returns by by apply table_loop.
  unfold bind at 1, Add, add_constraint at 1.
  erewrite bind_returns by apply enforce_last.
  unfold ret, encoded, emitted_constraints.
  by rewrite !add_constraints_app, add_variables_app, <- ?app_assoc.
Qed.

Lemma table_optional_returns variables tuples option vs ts opt m :
  is_variables variables vs → is_tuples tuples ts → as_IntVar option = Some opt →
  valid_input vs ts →
  table_optional variables tuples option m = (encoded m vs ts opt, inr tt).
Proof.
  intros Hvs Hts Hopt Hvalid.
  erewrite table_optional_encodes
    by (apply checked_Some; eauto using valid_input_accepted).
  by rewrite encode_returns.
Qed.

Lemma py_variables_is vs : is_variables (py_variables vs) vs.
Proof.
  exists (PyIntVar <$> vs). split; [done|].
  apply Forall2_fmap_l, Forall_Forall2_diag, Forall_true. done.
Qed.

Lemma py_tuples_is ts : is_tuples (py_tuples ts) ts.
Proof.
  eexists. split; [done|].
  apply Forall2_fmap_l, Forall_Forall2_diag, Forall_true. intros t.
  exists (PyInt <$> t). split; [done|].
  apply Forall2_fmap_l, Forall_Forall2_diag, Forall_true. done.
Qed.

(** ** Meaning of the emitted constraints *)

Lemma literal_true_spec a v : literal_true a v = true ↔ value a v = 1%Z.
Proof. unfold literal_true. by rewrite bool_decide_eq_true. Qed.

Lemma enforced_linear a e k lit :
  constraint_holds a (mkConstraint (LinearEq e k) [lit]) = true
  ↔ (value a lit = 1%Z → eval a e = k).
Proof.
  unfold constraint_holds. simpl. rewrite andb_true_r.
  destruct (literal_true a lit) eqn:Hlit; simpl.
  - apply literal_true_spec in Hlit. rewrite bool_decide_eq_true. tauto.
  - apply not_true_iff_false in Hlit. rewrite literal_true_spec in Hlit. tauto.
Qed.

Lemma enforced_and a lits lit :
  constraint_holds a (mkConstraint (BoolAnd lits) [lit]) = true
  ↔ (value a lit = 1%Z → Forall (λ x, value a x = 1%Z) lits).
Proof.
  unfold constraint_holds. simpl. rewrite andb_true_r.
  assert (forallb (literal_true a) lits = true ↔ Forall (λ x, value a x = 1%Z) lits) as Hall.
  { rewrite forallb_forall, Forall_forall. setoid_rewrite literal_true_spec.
    setoid_rewrite list_elem_of_In. done. }
  destruct (literal_true a lit) eqn:Hlit; simpl.
  - apply literal_true_spec in Hlit. rewrite Hall. tauto.
  - apply not_true_iff_false in Hlit. rewrite literal_true_spec in Hlit. tauto.
Qed.

(** A constraint whose enforcement literal is not true holds. *)
Lemma not_enforced a b lit :
  value a lit ≠ 1%Z → constraint_holds a (mkConstraint b [lit]) = true.
Proof.
  intros H. unfold constraint_holds. simpl.
  destruct (literal_true a lit) eqn:Hlit; [|done].
  by apply literal_true_spec in Hlit.
Qed.

Lemma bind_length {A B} (f : A → list B) (w : nat) (l : list A) :
  (∀ x, x ∈ l → length (f x) = w) → length (l ≫= f) = length l * w.
Proof.
  induction l as [|x l IH]; intros Hw; csimpl; [done|].
  rewrite length_app, IH, Hw; [done|apply list_elem_of_here|].
  intros; apply Hw. by apply list_elem_of_further.
Qed.

Lemma drop_imap_app {A B} (f : nat → A → B) (l l' : list A) :
  drop (length l) (imap f (l ++ l')) = imap (λ k, f (length l + k)) l'.
Proof.
  rewrite imap_app.
  rewrite <- (length_imap f l) at 1. by rewrite drop_app_length.
Qed.

Section Emitted.
Variables (m : CpModel) (variables : list IntVar) (tuples : list (list Z))
          (option : IntVar).

Lemma new_constraints_encoded :
  new_constraints m (encoded m variables tuples option)
  = emitted_constraints m variables tuples option.
Proof. unfold new_constraints, encoded. simpl. by rewrite drop_app_length. Qed.

Lemma new_variables_encoded :
  new_variables m (encoded m variables tuples option)
  = imap (λ k x, (length (model_variables m) + k, x))
         (b_declarations tuples ++ is_assigned_declarations variables tuples).
Proof. unfold new_variables, encoded. simpl. by rewrite drop_imap_app. Qed.

Lemma declarations_length :
  length (b_declarations tuples ++ is_assigned_declarations variables tuples)
  = length tuples + length variables * width tuples.
Proof.
  unfold b_declarations, is_assigned_declarations.
  rewrite length_app, length_fmap, length_seq.
  rewrite (bind_length _ (width tuples)), length_seq; [done|].
  intros i _. unfold range. by rewrite length_fmap, length_seqZ.
Qed.

Lemma declarations_boolean :
  Forall (λ x, var_lb x = 0%Z ∧ var_ub x = 1%Z)
         (b_declarations tuples ++ is_assigned_declarations variables tuples).
Proof.
  unfold b_declarations, is_assigned_declarations.
  apply Forall_app. split.
  - by apply Forall_fmap, Forall_true.
  - apply Forall_bind, Forall_true. intros i. by apply Forall_fmap, Forall_true.
Qed.

(** What it takes to satisfy what [table_optional] added. *)
Lemma satisfies_encoded a :
  satisfies_emitted a m (encoded m variables tuples option) = true
  ↔ (∀ k, k < length tuples + length variables * width tuples →
          (0 ≤ a (length (model_variables m) + k)%nat ≤ 1)%Z)
    ∧ Forall (λ c, constraint_holds a c = true)
             (emitted_constraints m variables tuples option).
Proof.
  unfold satisfies_emitted.
  rewrite andb_true_iff, new_constraints_encoded, new_variables_encoded.
  rewrite !forallb_forall, !Forall_forall.
  setoid_rewrite <- list_elem_of_In. apply and_iff_compat_r.
  pose proof declarations_boolean as Hbool.
  rewrite <- declarations_length. split.
  - intros H k Hk. apply lookup_lt_is_Some_2 in Hk as [x Hx].
    eapply Forall_lookup_1 in Hbool as [Hlb Hub]; [|done].
    specialize (H (length (model_variables m) + k, x)
                  (elem_of_lookup_imap_2 _ _ _ _ Hx)).
    unfold in_domain in H. simpl in H. apply bool_decide_eq_true in H. lia.
  - intros H [idx x] (k & x' & [= -> ->] & Hx)%elem_of_lookup_imap.
    eapply Forall_lookup_1 in Hbool as [Hlb Hub]; [|done].
    unfold in_domain. simpl. apply bool_decide_eq_true. rewrite Hlb, Hub.
    apply H. by eapply lookup_lt_Some.
Qed.
End Emitted.

(** Booleans that sum to one: exactly one of them is true. *)
Lemma sum_values_cons a v vs :
  sum_values a (v :: vs) = (value a v + sum_values a vs)%Z.
Proof. done. Qed.

Lemma sum_values_nonneg a vs :
  Forall (λ v, 0 ≤ value a v ≤ 1)%Z vs → (0 ≤ sum_values a vs)%Z.
Proof.
  induction 1 as [|v vs Hv Hvs IH]; [done|]. rewrite sum_values_cons. lia.
Qed.

Lemma sum_values_zero a vs :
  Forall (λ v, 0 ≤ value a v ≤ 1)%Z vs → sum_values a vs = 0%Z →
  Forall (λ v, value a v = 0%Z) vs.
Proof.
  induction 1 as [|v vs Hv Hvs IH]; [done|].
  rewrite sum_values_cons. intros Hsum.
  pose proof (sum_values_nonneg a vs Hvs).
  constructor; [lia|]. apply IH. lia.
Qed.

Lemma sum_values_one a vs :
  Forall (λ v, 0 ≤ value a v ≤ 1)%Z vs → sum_values a vs = 1%Z →
  ∃ k v, vs !! k = Some v ∧ value a v = 1%Z
         ∧ ∀ k' v', vs !! k' = Some v' → value a v' = 1%Z → k' = k.
Proof.
  induction 1 as [|v vs Hv Hvs IH]; intros Hsum; [done|].
  rewrite sum_values_cons in Hsum.
  destruct (decide (value a v = 1%Z)) as [Hone|Hzero].
  - exists 0, v. split_and!; [done..|].
    intros [|k'] v' Hk' Hv'; [done|]. simpl in Hk'.
    apply sum_values_zero in Hvs; [|lia].
    eapply Forall_lookup_1 in Hvs; [|done]. simpl in Hvs. lia.
  - destruct IH as (k & w & Hk & Hw & Huniq); [lia|].
    exists (S k), w. split_and!; [done..|].
    intros [|k'] v' Hk' Hv'; simpl in Hk'; [naive_solver|].
    f_equal. eauto.
Qed.

Section Solutions.
Variables (m : CpModel) (variables : list IntVar) (tuples : list (list Z))
          (option : IntVar) (a : Assignment).
Hypothesis Hvalid : valid_input variables tuples.
Hypothesis Hsat : satisfies_emitted a m (encoded m variables tuples option) = true.

Lemma emitted_holds c :
  c ∈ emitted_constraints m variables tuples option → constraint_holds a c = true.
Proof.
  apply satisfies_encoded in Hsat as [_ H]. intros Hc.
  by eapply Forall_forall in H.
Qed.

Lemma b_var_boolean k :
  k < length tuples → (0 ≤ value a (b_var m k) ≤ 1)%Z.
Proof.
  apply satisfies_encoded in Hsat as [H _]. intros Hk. apply H. lia.
Qed.

Lemma is_assigned_var_boolean i j :
  i < length variables → j < width tuples →
  (0 ≤ value a (is_assigned_var m tuples i j) ≤ 1)%Z.
Proof.
  apply satisfies_encoded in Hsat as [H _]. intros Hi Hj.
  unfold value, is_assigned_var. simpl.
  rewrite <- !Nat.add_assoc. apply H.
  apply Nat.add_lt_mono_l.
  assert (S i * width tuples ≤ length variables * width tuples)
    by (apply Nat.mul_le_mono_r; lia).
  simpl in *. lia.
Qed.

(** Lines 62-64: [is_assigned[i][j]] implies [variables[i] == j]. *)
Lemma linking_sound i v (j : Z) :
  variables !! i = Some v → (0 ≤ j < max_value_of tuples + 1)%Z →
  value a (is_assigned_var m tuples i (Z.to_nat j)) = 1%Z → value a v = j.
Proof.
  intros Hv Hj. apply (enforced_linear a (Term v)). apply emitted_holds.
  unfold emitted_constraints. rewrite !elem_of_app. right; right; left.
  unfold linking_constraints. apply list_elem_of_bind. exists i. split.
  - rewrite Hv. apply (list_elem_of_fmap_2' _ _ j); [|done]. by apply elem_of_range.
  - apply elem_of_seq. apply lookup_lt_Some in Hv. lia.
Qed.

(** Lines 67-68: [b[k]] implies [is_assigned[j][t[j]]] at every position. *)
Lemma table_sound k t j tj :
  tuples !! k = Some t → value a (b_var m k) = 1%Z → t !! j = Some tj →
  value a (is_assigned_var m tuples j (Z.to_nat tj)) = 1%Z.
Proof.
  intros Hk Hb Hj.
  assert (constraint_holds a
            (mkConstraint
               (BoolAnd (imap (λ j tj, is_assigned_var m tuples j (Z.to_nat tj)) t))
               [b_var m k]) = true) as H.
  { apply emitted_holds. unfold emitted_constraints. rewrite !elem_of_app.
    right; right; right; left. unfold table_constraints.
    apply elem_of_lookup_imap. by exists k, t. }
  apply enforced_and in H; [|done].
  eapply Forall_forall in H; [done|].
  apply elem_of_lookup_imap. by exists j, tj.
Qed.

(** Line 71. *)
Lemma one_tuple_sound :
  value a option = 1%Z → sum_values a (b_of m tuples) = 1%Z.
Proof.
  apply (enforced_linear a (Sum (b_of m tuples))). apply emitted_holds.
  unfold emitted_constraints. rewrite !elem_of_app.
  right; right; right; right. by apply list_elem_of_singleton.
Qed.

(** Lines 58-59. *)
Lemma one_value_sound i :
  value a option = 1%Z → i < length variables →
  sum_values a (is_assigned_var m tuples i <$> seq 0 (width tuples)) = 1%Z.
Proof.
  intros Hopt Hi.
  apply (enforced_linear a (Sum _) 1 option); [|done]. apply emitted_holds.
  unfold emitted_constraints. rewrite !elem_of_app. right; left.
  unfold one_value_constraints.
  apply (list_elem_of_fmap_2 (λ row, mkConstraint (LinearEq (Sum row) 1) [option])).
  eapply list_elem_of_lookup_2. by apply is_assigned_of_lookup.
Qed.

(** Lines 52-55. *)
Lemma pruning_sound i (j : Z) :
  value a option = 1%Z → i < length variables →
  (0 ≤ j < max_value_of tuples + 1)%Z →
  (∀ t, t ∈ tuples → t !! i ≠ Some j) →
  value a (is_assigned_var m tuples i (Z.to_nat j)) = 0%Z.
Proof.
  intros Hopt Hi Hj Habsent.
  apply (enforced_linear a (Term _) 0 option); [|done]. apply emitted_holds.
  unfold emitted_constraints. rewrite !elem_of_app. left.
  unfold pruning_constraints. apply list_elem_of_bind. exists i.
  split; [|apply elem_of_seq; lia].
  apply list_elem_of_bind. exists j. split; [|by apply elem_of_range].
  case_decide as Hin; [|by apply list_elem_of_singleton].
  apply possible_values_of_spec in Hin as (t & Ht & Hij). by destruct (Habsent t Ht).
Qed.

(** The tuple whose indicator is true is the value of [variables]. *)
Lemma selected_tuple k t :
  tuples !! k = Some t → value a (b_var m k) = 1%Z →
  value a <$> variables = t.
Proof.
  intros Hk Hb.
  assert (t ∈ tuples) as Ht by by eapply list_elem_of_lookup_2.
  pose proof (tuple_lengths variables tuples Hvalid) as Hlen.
  eapply Forall_forall in Hlen; [|done].
  apply list_eq. intros i. rewrite list_lookup_fmap.
  destruct (variables !! i) as [v|] eqn:Hv; simpl.
  - destruct (lookup_lt_is_Some_2 t i) as [tj Hj].
    { rewrite Hlen. by eapply lookup_lt_Some. }
    rewrite Hj. f_equal.
    destruct (tuple_value_range variables tuples Hvalid t i tj Ht Hj) as [_ Hrange].
    eapply linking_sound; [done..|]. by eapply table_sound.
  - symmetry. apply lookup_ge_None. rewrite Hlen. by apply lookup_ge_None.
Qed.

(** With [option] true exactly one indicator [b[k]] is true. *)
Lemma exactly_one_tuple :
  value a option = 1%Z →
  ∃ k t, tuples !! k = Some t ∧ value a (b_var m k) = 1%Z
         ∧ ∀ k', k' < length tuples → value a (b_var m k') = 1%Z → k' = k.
Proof.
  intros Hopt.
  destruct (sum_values_one a (b_of m tuples)) as (k & v & Hk & Hv & Huniq).
  { unfold b_of. apply Forall_fmap, Forall_seq. intros k Hk. simpl.
    apply b_var_boolean. lia. }
  { by apply one_tuple_sound. }
  assert (k < length tuples) as Hlt.
  { apply lookup_lt_Some in Hk. unfold b_of in Hk.
    by rewrite length_fmap, length_seq in Hk. }
  rewrite b_of_lookup in Hk by done. injection Hk as <-.
  destruct (lookup_lt_is_Some_2 tuples k Hlt) as [t Ht].
  exists k, t. split_and!; [done..|].
  intros k' Hk' Hb'. eapply Huniq; [|done]. by apply b_of_lookup.
Qed.
End Solutions.

(** Every emitted constraint is enforced by [option] or by an auxiliary. *)
Lemma emitted_enforcement m variables tuples option c :
  c ∈ emitted_constraints m variables tuples option →
  ∃ b lit, c = mkConstraint b [lit]
           ∧ (lit = option ∨ length (model_variables m) ≤ Index lit).
Proof.
  unfold emitted_constraints. rewrite !elem_of_app.
  intros [H|[H|[H|[H|H]]]].
  - apply list_elem_of_bind in H as (i & H & _).
    apply list_elem_of_bind in H as (j & H & _).
    case_decide; [by apply elem_of_nil in H|].
    apply list_elem_of_singleton in H as ->. eauto.
  - apply list_elem_of_fmap in H as (row & -> & _). eauto.
  - apply list_elem_of_bind in H as (i & H & _).
    destruct (variables !! i) as [v|]; [|by apply elem_of_nil in H].
    apply list_elem_of_fmap in H as (j & -> & _).
    do 2 eexists. split; [done|]. right. simpl. lia.
  - apply elem_of_lookup_imap in H as (k & t & -> & _).
    do 2 eexists. split; [done|]. right. simpl. lia.
  - apply list_elem_of_singleton in H as ->. unfold one_tuple_constraint. eauto.
Qed.

(** With [option] false, setting every auxiliary to false satisfies the
    emitted constraints. *)
Lemma auxiliaries_false_satisfies m variables tuples option a0 :
  value a0 option = 0%Z →
  satisfies_emitted (auxiliaries_false m a0) m (encoded m variables tuples option)
  = true.
Proof.
  intros Hopt. apply satisfies_encoded. split.
  - intros k _. unfold auxiliaries_false. case_decide; lia.
  - apply Forall_forall. intros c (b & lit & -> & Hlit)%emitted_enforcement.
    apply not_enforced. unfold value, auxiliaries_false.
    destruct Hlit as [->|Hlit]; case_decide; unfold value in Hopt; lia.
Qed.

Lemma auxiliaries_false_agrees m a0 v :
  belongs_to m v → value (auxiliaries_false m a0) v = value a0 v.
Proof. unfold belongs_to, value, auxiliaries_false. intros. by case_decide. Qed.

Section Positions.
Variables (m : CpModel) (variables : list IntVar) (tuples : list (list Z))
          (option : IntVar) (a : Assignment).
Hypothesis Hvalid : valid_input variables tuples.
Hypothesis Hsat : satisfies_emitted a m (encoded m variables tuples option) = true.

Lemma is_assigned_of_length :
  length (is_assigned_of m variables tuples) = length variables.
Proof. unfold is_assigned_of. by rewrite length_fmap, length_seq. Qed.

(** A cell of [is_assigned], read through the list. *)
Lemma is_assigned_cell i row j x :
  is_assigned_of m variables tuples !! i = Some row → row !! j = Some x →
  i < length variables ∧ j < width tuples ∧ x = is_assigned_var m tuples i j.
Proof.
  intros Hrow Hx.
  assert (i < length variables) as Hi.
  { rewrite <- is_assigned_of_length. by eapply lookup_lt_Some. }
  rewrite is_assigned_of_lookup in Hrow by done. injection Hrow as <-.
  assert (j < width tuples) as Hj.
  { apply lookup_lt_Some in Hx. by rewrite length_fmap, length_seq in Hx. }
  rewrite list_lookup_fmap, lookup_seq_lt in Hx by done.
  by injection Hx as <-.
Qed.

(** Two true indicators at one position: [variables[i]] would have two values. *)
Lemma at_most_one_value i j1 j2 :
  i < length variables → j1 < width tuples → j2 < width tuples →
  value a (is_assigned_var m tuples i j1) = 1%Z →
  value a (is_assigned_var m tuples i j2) = 1%Z →
  j1 = j2.
Proof.
  intros Hi Hj1 Hj2 H1 H2.
  destruct (lookup_lt_is_Some_2 variables i Hi) as [v Hv].
  unfold width in Hj1, Hj2.
  assert (value a v = Z.of_nat j1) as E1.
  { eapply (linking_sound m variables tuples option a Hsat i v); [done|lia|].
    by rewrite Nat2Z.id. }
  assert (value a v = Z.of_nat j2) as E2.
  { eapply (linking_sound m variables tuples option a Hsat i v); [done|lia|].
    by rewrite Nat2Z.id. }
  lia.
Qed.
End Positions.

(** ** The demonstration *)

Lemma demo_valid_input : valid_input demo_variables demo_tuples.
Proof.
  split_and!; [done..|]. repeat constructor; done.
Qed.

Lemma forallb_drop {A} (P : A → bool) (l : list A) n :
  forallb P l = true → forallb P (drop n l) = true.
Proof.
  rewrite !forallb_forall. intros H x Hx%list_elem_of_In.
  apply H, list_elem_of_In. by eapply subseteq_drop.
Qed.

(** A solution of [m'] with one more constraint [c] satisfies what a call on
    a constraint-free [m0] emitted, and [c]. *)
Lemma feasible_emitted a m0 m' c obj :
  model_constraints m0 = [] →
  feasible a (mkModel (model_variables m') (model_constraints m' ++ [c]) obj) = true →
  satisfies_emitted a m0 m' = true ∧ constraint_holds a c = true.
Proof.
  intros Hm0. unfold feasible, satisfies_emitted, new_variables, new_constraints.
  simpl. rewrite Hm0. simpl. rewrite !drop_0, forallb_app. simpl.
  rewrite andb_true_r, !andb_true_iff. intros (Hdom & Hcts & Hc).
  split_and!; [|done..]. by apply forallb_drop.
Qed.

(** The model built by [main]: the declarations, the encoding, the
    objective, and [b == 1]. *)
Lemma main_model :
  (main empty_model).1
  = mkModel
      (model_variables (encoded demo_model demo_variables demo_tuples demo_option))
      (model_constraints (encoded demo_model demo_variables demo_tuples demo_option)
       ++ [mkConstraint (LinearEq (Term demo_option) 1) []])
      (Some (Sum demo_variables)).
Proof. vm_compute. reflexivity. Qed.

Lemma main_returns : (main empty_model).2 = inr demo_variables.
Proof. vm_compute. reflexivity. Qed.

Lemma demo_model_constraints : model_constraints demo_model = [].
Proof. vm_compute. reflexivity. Qed.

Lemma main_feasible a :
  feasible a (main empty_model).1 = true →
  value a <$> demo_variables = [0; 1; 2; 3; 4]%Z
  ∨ value a <$> demo_variables = [5; 6; 7; 8; 9]%Z.
Proof.
  rewrite main_model.
  intros [Hsat Hb]%(feasible_emitted a demo_model); [|apply demo_model_constraints].
  apply bool_decide_eq_true in Hb.
  destruct (exactly_one_tuple _ _ _ _ a Hsat Hb) as (k & t & Hk & Hbk & _).
  pose proof (selected_tuple _ _ _ _ a demo_valid_input Hsat k t Hk Hbk) as ->.
  destruct k as [|[|k]]; [left|right|discriminate Hk]; by injection Hk.
Qed.

Lemma main_objective a :
  objective_value a (main empty_model).1 = sum_values a demo_variables.
Proof. rewrite main_model. reflexivity. Qed.

Lemma demo_solution_feasible : feasible demo_solution (main empty_model).1 = true.
Proof. vm_compute. reflexivity. Qed.

Lemma demo_solution_optimal : optimal demo_solution (main empty_model).1.
Proof.
  split; [apply demo_solution_feasible|]. intros a' Ha'.
  rewrite !main_objective. unfold sum_values.
  destruct (main_feasible a' Ha') as [->| ->]; vm_compute; discriminate.
Qed.

(** * The properties of [table_optional] *)

(** C1. On every valid input the call returns normally, and every assignment
    that satisfies what the call emitted and makes [option] true gives
    [variables], position by position, the values of some member of
    [tuples]. *)
Theorem table_optional_enforces_table m variables tuples option vs ts opt :
  is_variables variables vs → is_tuples tuples ts → as_IntVar option = Some opt →
  valid_input vs ts →
  (table_optional variables tuples option m).2 = inr tt
  ∧ ∀ a, satisfies_emitted a m (table_optional variables tuples option m).1 = true →
         value a opt = 1%Z →
         ∃ t, t ∈ ts ∧ value a <$> vs = t.
Proof.
  intros Hvs Hts Hopt Hvalid.
  rewrite (table_optional_returns _ _ _ vs ts opt) by done. simpl.
  split; [done|]. intros a Hsat Htrue.
  destruct (exactly_one_tuple m vs ts opt a Hsat Htrue) as (k & t & Hk & Hb & _).
  exists t. split; [by eapply list_elem_of_lookup_2|].
  by eapply selected_tuple.
Qed.

Lemma table_optional_enforces_table_witness :
  ∃ t, t ∈ demo_tuples ∧ value demo_solution <$> demo_variables = t.
Proof.
  apply (table_optional_enforces_table demo_model
           (py_variables demo_variables) (py_tuples demo_tuples)
           (PyIntVar demo_option) demo_variables demo_tuples demo_option).
  - apply py_variables_is.
  - apply py_tuples_is.
  - reflexivity.
  - apply demo_valid_input.
  - vm_compute. reflexivity.
  - vm_compute. reflexivity.
Defined.

(** C2. On every valid input, with [option] false the emitted constraints
    are satisfiable and leave [variables] free: whatever values [a0] gives
    the variables of the model, some assignment agrees with [a0] on them, in
    particular on [variables], and satisfies what the call emitted. *)
Theorem table_optional_disabled_unconstrained m variables tuples option vs ts opt :
  is_variables variables vs → is_tuples tuples ts → as_IntVar option = Some opt →
  valid_input vs ts → Forall (belongs_to m) vs →
  (table_optional variables tuples option m).2 = inr tt
  ∧ ∀ a0 : Assignment, value a0 opt = 0%Z →
      ∃ a, (∀ v, belongs_to m v → value a v = value a0 v)
           ∧ value a <$> vs = value a0 <$> vs
           ∧ value a opt = 0%Z
           ∧ satisfies_emitted a m (table_optional variables tuples option m).1 = true.
Proof.
  intros Hvs Hts Hopt Hvalid Hbelong.
  rewrite (table_optional_returns _ _ _ vs ts opt) by done. simpl.
  split; [done|]. intros a0 Hfalse.
  exists (auxiliaries_false m a0). split_and!.
  - intros v Hv. by apply auxiliaries_false_agrees.
  - apply Forall_fmap_ext_1. eapply Forall_impl; [done|].
    intros v Hv. by apply auxiliaries_false_agrees.
  - unfold value, auxiliaries_false. case_decide; [done|lia].
  - by apply auxiliaries_false_satisfies.
Qed.

Lemma table_optional_disabled_unconstrained_witness :
  ∃ a, (∀ v, belongs_to demo_model v → value a v = value demo_disabled v)
       ∧ value a <$> demo_variables = value demo_disabled <$> demo_variables
       ∧ value a demo_option = 0%Z
       ∧ satisfies_emitted a demo_model
           (table_optional (py_variables demo_variables) (py_tuples demo_tuples)
              (PyIntVar demo_option) demo_model).1 = true.
Proof.
  apply (table_optional_disabled_unconstrained demo_model
           (py_variables demo_variables) (py_tuples demo_tuples)
           (PyIntVar demo_option) demo_variables demo_tuples demo_option).
  - apply py_variables_is.
  - apply py_tuples_is.
  - reflexivity.
  - apply demo_valid_input.
  - unfold belongs_to. repeat constructor; simpl; lia.
  - reflexivity.
Defined.

(** C4. On every valid input, with [b] and [is_assigned] the locals of the
    call, [b] holding one indicator per tuple: in every assignment that satisfies what was emitted and makes
    [option] true, exactly one [b[k]] is true, and at every position [i] of
    [variables] the row [is_assigned[i]] has the cell of the value [t[i]] of
    the tuple [k]; that cell is true, it is the only true cell of the row, and
    [variables[i]] has the value [t[i]]. *)
Theorem exactly_one_indicator m variables tuples option vs ts opt :
  is_variables variables vs → is_tuples tuples ts → as_IntVar option = Some opt →
  valid_input vs ts →
  ∃ b is_assigned,
    encode vs ts opt m
    = ((table_optional variables tuples option m).1, inr (b, is_assigned))
    ∧ length b = length ts
    ∧ ∀ a, satisfies_emitted a m (table_optional variables tuples option m).1 = true →
           value a opt = 1%Z →
           ∃ k bk t,
             b !! k = Some bk ∧ ts !! k = Some t ∧ value a bk = 1%Z
             ∧ (∀ k' bk', b !! k' = Some bk' → value a bk' = 1%Z → k' = k)
             ∧ ∀ i v, vs !! i = Some v →
                 ∃ row tj x,
                   is_assigned !! i = Some row ∧ t !! i = Some tj
                   ∧ row !! Z.to_nat tj = Some x
                   ∧ value a x = 1%Z
                   ∧ (∀ j' x', row !! j' = Some x' → value a x' = 1%Z →
                               j' = Z.to_nat tj)
                   ∧ value a v = tj.
Proof.
  intros Hvs Hts Hopt Hvalid.
  rewrite (table_optional_returns _ _ _ vs ts opt) by done. simpl.
  exists (b_of m ts), (is_assigned_of m vs ts).
  split; [by apply encode_returns|].
  split; [unfold b_of; by rewrite length_fmap, length_seq|].
  intros a Hsat Htrue.
  destruct (exactly_one_tuple m vs ts opt a Hsat Htrue) as (k & t & Hk & Hb & Huniq).
  assert (t ∈ ts) as Ht by by eapply list_elem_of_lookup_2.
  exists k, (b_var m k), t. split_and!; [|done..| |].
  - apply b_of_lookup. by eapply lookup_lt_Some.
  - intros k' bk' Hk' Hb'.
    assert (k' < length ts) as Hlt.
    { apply lookup_lt_Some in Hk'. unfold b_of in Hk'.
      by rewrite length_fmap, length_seq in Hk'. }
    rewrite b_of_lookup in Hk' by done. injection Hk' as <-. by apply Huniq.
  - intros i v Hv.
    pose proof (selected_tuple m vs ts opt a Hvalid Hsat k t Hk Hb) as Hsel.
    assert (is_Some (t !! i)) as [tj Hj].
    { rewrite <- Hsel, list_lookup_fmap, Hv. done. }
    destruct (tuple_value_range vs ts Hvalid t i tj Ht Hj) as [Hi Hrange].
    exists (is_assigned_var m ts i <$> seq 0 (width ts)), tj,
           (is_assigned_var m ts i (Z.to_nat tj)).
    split_and!.
    + by apply is_assigned_of_lookup.
    + done.
    + by apply is_assigned_row_lookup.
    + by eapply table_sound.
    + intros j' x' Hx' Hone.
      destruct (is_assigned_cell m vs ts i _ j' x'
                  (is_assigned_of_lookup m vs ts i Hi) Hx') as (_ & Hj' & ->).
      eapply (at_most_one_value m vs ts opt a Hsat i); [done..| |done|].
      * unfold width. lia.
      * by eapply table_sound.
    + rewrite <- Hsel, list_lookup_fmap, Hv in Hj. by injection Hj.
Qed.

(** C5. On every valid input, for a position [i] and a value [j] in
    [0..max_value] found at position [i] in no tuple: no assignment that
    satisfies what was emitted and makes [option] true gives [variables[i]]
    the value [j], and [is_assigned[i][j]] is false in each of them. *)
Theorem absent_value_pruned m variables tuples option vs ts opt :
  is_variables variables vs → is_tuples tuples ts → as_IntVar option = Some opt →
  valid_input vs ts →
  ∃ b is_assigned,
    encode vs ts opt m
    = ((table_optional variables tuples option m).1, inr (b, is_assigned))
    ∧ ∀ i (j : Z) v,
        vs !! i = Some v → (0 ≤ j ≤ max_value_of ts)%Z →
        (∀ t, t ∈ ts → t !! i ≠ Some j) →
        ∀ a, satisfies_emitted a m (table_optional variables tuples option m).1 = true →
             value a opt = 1%Z →
             value a v ≠ j
             ∧ ∃ row x, is_assigned !! i = Some row ∧ row !! Z.to_nat j = Some x
                        ∧ value a x = 0%Z.
Proof.
  intros Hvs Hts Hopt Hvalid.
  rewrite (table_optional_returns _ _ _ vs ts opt) by done. simpl.
  exists (b_of m ts), (is_assigned_of m vs ts).
  split; [by apply encode_returns|]. intros i j v Hv Hj Habsent a Hsat Htrue.
  assert (i < length vs) as Hi by by eapply lookup_lt_Some.
  split.
  - destruct (exactly_one_tuple m vs ts opt a Hsat Htrue) as (k & t & Hk & Hb & _).
    pose proof (selected_tuple m vs ts opt a Hvalid Hsat k t Hk Hb) as Hsel.
    intros Heq. apply (Habsent t); [by eapply list_elem_of_lookup_2|].
    by rewrite <- Hsel, list_lookup_fmap, Hv, <- Heq.
  - exists (is_assigned_var m ts i <$> seq 0 (width ts)),
           (is_assigned_var m ts i (Z.to_nat j)).
    split_and!.
    + by apply is_assigned_of_lookup.
    + apply is_assigned_row_lookup. lia.
    + eapply pruning_sound; [done..|lia|done].
Qed.

(** C6. On every valid input, in every assignment that satisfies what was
    emitted, whatever the value of [option]: if [is_assigned[i][j]] is true
    then [variables[i]] has the value [j]. *)
Theorem is_assigned_implies_value m variables tuples option vs ts opt :
  is_variables variables vs → is_tuples tuples ts → as_IntVar option = Some opt →
  valid_input vs ts →
  ∃ b is_assigned,
    encode vs ts opt m
    = ((table_optional variables tuples option m).1, inr (b, is_assigned))
    ∧ ∀ i (j : Z) v,
        vs !! i = Some v → (0 ≤ j ≤ max_value_of ts)%Z →
        ∃ row x, is_assigned !! i = Some row ∧ row !! Z.to_nat j = Some x
          ∧ ∀ a, satisfies_emitted a m (table_optional variables tuples option m).1 = true →
                 value a x = 1%Z → value a v = j.
Proof.
  intros Hvs Hts Hopt Hvalid.
  rewrite (table_optional_returns _ _ _ vs ts opt) by done. simpl.
  exists (b_of m ts), (is_assigned_of m vs ts).
  split; [by apply encode_returns|]. intros i j v Hv Hj.
  assert (i < length vs) as Hi by by eapply lookup_lt_Some.
  exists (is_assigned_var m ts i <$> seq 0 (width ts)),
         (is_assigned_var m ts i (Z.to_nat j)).
  split_and!.
  - by apply is_assigned_of_lookup.
  - apply is_assigned_row_lookup. lia.
  - intros a Hsat Hone. eapply linking_sound; [done..|lia|done].
Qed.

(** C9. On every valid input, in every assignment that satisfies what was
    emitted, [option] true or not, at most one [is_assigned[i][j]] is true at
    each position [i]. *)
Theorem at_most_one_is_assigned m variables tuples option vs ts opt :
  is_variables variables vs → is_tuples tuples ts → as_IntVar option = Some opt →
  valid_input vs ts →
  ∃ b is_assigned,
    encode vs ts opt m
    = ((table_optional variables tuples option m).1, inr (b, is_assigned))
    ∧ ∀ a, satisfies_emitted a m (table_optional variables tuples option m).1 = true →
        ∀ i row j1 j2 x1 x2,
          is_assigned !! i = Some row →
          row !! j1 = Some x1 → row !! j2 = Some x2 →
          value a x1 = 1%Z → value a x2 = 1%Z → j1 = j2.
Proof.
  intros Hvs Hts Hopt Hvalid.
  rewrite (table_optional_returns _ _ _ vs ts opt) by done. simpl.
  exists (b_of m ts), (is_assigned_of m vs ts).
  split; [by apply encode_returns|].
  intros a Hsat i row j1 j2 x1 x2 Hrow Hx1 Hx2 H1 H2.
  destruct (is_assigned_cell m vs ts i row j1 x1 Hrow Hx1) as (Hi & Hj1 & ->).
  destruct (is_assigned_cell m vs ts i row j2 x2 Hrow Hx2) as (_ & Hj2 & ->).
  by eapply (at_most_one_value m vs ts opt a Hsat i).
Qed.

Lemma exactly_one_indicator_witness :
  ∃ k bk t,
    b_of demo_model demo_tuples !! k = Some bk ∧ demo_tuples !! k = Some t
    ∧ value demo_solution bk = 1%Z
    ∧ ∃ row tj x,
        is_assigned_of demo_model demo_variables demo_tuples !! 2 = Some row
        ∧ t !! 2 = Some tj ∧ row !! Z.to_nat tj = Some x
        ∧ value demo_solution x = 1%Z
        ∧ value demo_solution (mkIntVar 2) = tj.
Proof.
  destruct (exactly_one_indicator demo_model
              (py_variables demo_variables) (py_tuples demo_tuples)
              (PyIntVar demo_option) demo_variables demo_tuples demo_option)
    as (b & is_assigned & Hrun & _ & H).
  - apply py_variables_is.
  - apply py_tuples_is.
  - reflexivity.
  - apply demo_valid_input.
  - rewrite encode_returns in Hrun by apply demo_valid_input.
    apply returned_value in Hrun. injection Hrun as <- <-.
    destruct (H demo_solution) as (k & bk & t & Hk & Ht & Hbk & _ & Hpos).
    + vm_compute. reflexivity.
    + vm_compute. reflexivity.
    + exists k, bk, t. split_and!; [done..|].
      destruct (Hpos 2 (mkIntVar 2)) as (row & tj & x & Hrow & Htj & Hx & Hone & _ & Hv);
        [reflexivity|].
      exists row, tj, x. by split_and!.
Defined.

Lemma absent_value_pruned_witness :
  value demo_solution (mkIntVar 0) ≠ 1%Z
  ∧ ∃ row x,
      is_assigned_of demo_model demo_variables demo_tuples !! 0 = Some row
      ∧ row !! 1 = Some x ∧ value demo_solution x = 0%Z.
Proof.
  destruct (absent_value_pruned demo_model
              (py_variables demo_variables) (py_tuples demo_tuples)
              (PyIntVar demo_option) demo_variables demo_tuples demo_option)
    as (b & is_assigned & Hrun & H).
  - apply py_variables_is.
  - apply py_tuples_is.
  - reflexivity.
  - apply demo_valid_input.
  - rewrite encode_returns in Hrun by apply demo_valid_input.
    apply returned_value in Hrun. injection Hrun as <- <-.
    apply (H 0 1%Z (mkIntVar 0)).
    + reflexivity.
    + vm_compute. by split.
    + intros t Ht. repeat (apply elem_of_cons in Ht as [->|Ht]; [done|]).
      by apply elem_of_nil in Ht.
    + vm_compute. reflexivity.
    + vm_compute. reflexivity.
Defined.

Lemma is_assigned_implies_value_witness :
  value demo_solution (mkIntVar 2) = 2%Z.
Proof.
  destruct (is_assigned_implies_value demo_model
              (py_variables demo_variables) (py_tuples demo_tuples)
              (PyIntVar demo_option) demo_variables demo_tuples demo_option)
    as (b & is_assigned & Hrun & H).
  - apply py_variables_is.
  - apply py_tuples_is.
  - reflexivity.
  - apply demo_valid_input.
  - vm_compute in Hrun. injection Hrun as <- <-.
    destruct (H 2 2%Z (mkIntVar 2)) as (row & x & Hrow & Hx & Hlink).
    + reflexivity.
    + vm_compute. by split.
    + injection Hrow as <-. injection Hx as <-.
      apply Hlink; vm_compute; reflexivity.
Defined.

Lemma at_most_one_is_assigned_witness :
  satisfies_emitted demo_solution demo_model
    (table_optional (py_variables demo_variables) (py_tuples demo_tuples)
       (PyIntVar demo_option) demo_model).1 = true
  ∧ value demo_solution (is_assigned_var demo_model demo_tuples 3 3) = 1%Z
  ∧ 3 = 3.
Proof.
  destruct (at_most_one_is_assigned demo_model
              (py_variables demo_variables) (py_tuples demo_tuples)
              (PyIntVar demo_option) demo_variables demo_tuples demo_option)
    as (b & is_assigned & Hrun & H).
  - apply py_variables_is.
  - apply py_tuples_is.
  - reflexivity.
  - apply demo_valid_input.
  - rewrite encode_returns in Hrun by apply demo_valid_input.
    apply returned_value in Hrun. injection Hrun as <- <-.
    split_and!; [vm_compute; reflexivity..|].
    apply (H demo_solution ltac:(vm_compute; reflexivity) 3
             (is_assigned_var demo_model demo_tuples 3 <$> seq 0 (width demo_tuples))
             3 3
             (is_assigned_var demo_model demo_tuples 3 3)
             (is_assigned_var demo_model demo_tuples 3 3));
      vm_compute; reflexivity.
Defined.

(** C7. A call with an empty [variables], an empty [tuples], or a negative
    integer in some tuple fails its assertion with the model as it was. *)
Theorem malformed_input_rejected m variables tuples option :
  as_sequence variables = Some []
  ∨ as_sequence tuples = Some []
  ∨ (∃ items t elements z,
       as_sequence tuples = Some items ∧ t ∈ items
       ∧ as_sequence t = Some elements ∧ PyInt z ∈ elements ∧ (z < 0)%Z) →
  table_optional variables tuples option m = (m, inl AssertionError).
Proof.
  intros Hbad. apply table_optional_rejects.
  destruct (checked variables tuples option) as [[[vs ts] opt]|] eqn:Hchecked; [|done].
  exfalso.
  apply checked_Some in Hchecked
    as ((vitems & Hvseq & Hvs) & (titems & Htseq & Hts) & _ & Hv & Ht & _ & Hpos).
  destruct Hbad as [Hempty|[Hempty|(items & t & elements & z & Hseq & Hin & Hel & Hz & Hneg)]].
  - rewrite Hempty in Hvseq. injection Hvseq as <-.
    by apply Forall2_nil_inv_l in Hvs.
  - rewrite Hempty in Htseq. injection Htseq as <-.
    by apply Forall2_nil_inv_l in Hts.
  - rewrite Hseq in Htseq. injection Htseq as <-.
    apply list_elem_of_lookup_1 in Hin as [k Hk].
    destruct (Forall2_lookup_l _ _ _ _ _ Hts Hk) as (t' & Ht' & (es & Hes & Hall)).
    rewrite Hel in Hes. injection Hes as <-.
    apply list_elem_of_lookup_1 in Hz as [j Hj].
    destruct (Forall2_lookup_l _ _ _ _ _ Hall Hj) as (z' & Hz' & [= <-]).
    eapply Forall_lookup_1 in Hpos; [|done].
    eapply Forall_lookup_1 in Hpos; [|done].
    simpl in Hpos. lia.
Qed.

Lemma malformed_input_rejected_witness :
  table_optional small_variables negative_tuples small_option small_model
  = (small_model, inl AssertionError).
Proof.
  apply malformed_input_rejected. right; right.
  exists [PyTuple [PyInt 0; PyInt (-1)]], (PyTuple [PyInt 0; PyInt (-1)]),
         [PyInt 0; PyInt (-1)], (-1)%Z.
  split_and!; [reflexivity| |reflexivity| |lia].
  - apply list_elem_of_here.
  - apply list_elem_of_further, list_elem_of_here.
Defined.

(** C3. The assertions compare [len(variables)] with the length of the first
    tuple only.  A shorter second tuple is accepted and encoded; a longer one
    raises [KeyError] at line 44, after line 37 has added [b[0]] and [b[1]]
    to the model. *)
Theorem later_tuple_length_unchecked :
  (table_optional small_variables short_tuples small_option small_model).2 = inr tt
  ∧ length (new_variables small_model
      (table_optional small_variables short_tuples small_option small_model).1) = 8
  ∧ table_optional small_variables long_tuples small_option small_model
    = (add_variables small_model [mkVar "b[0]" 0 1; mkVar "b[1]" 0 1], inl KeyError).
Proof. vm_compute. done. Qed.

(** C10. The assertion on [option] is [isinstance(option, IntVar)] alone:
    whatever the domain [lb, ub] of [option] in the model, Boolean or wider,
    the assertions pass with the model as it was, the call does not end in
    [AssertionError], and the encoding goes on: the variables [b] and
    [is_assigned] of lines 37 and 47-49 are declared in the model. *)
Theorem option_domain_unchecked m variables tuples vs ts opt name lb ub :
  is_variables variables vs → is_tuples tuples ts → valid_input vs ts →
  model_variables m !! Index opt = Some (mkVar name lb ub) →
  check_arguments variables tuples (PyIntVar opt) m = (m, inr (vs, ts, opt))
  ∧ (table_optional variables tuples (PyIntVar opt) m).2 ≠ inl AssertionError
  ∧ model_variables (table_optional variables tuples (PyIntVar opt) m).1
    = model_variables m ++ b_declarations ts ++ is_assigned_declarations vs ts.
Proof.
  intros Hvs Hts Hvalid _. split_and!.
  - rewrite check_arguments_checked.
    by rewrite (proj2 (checked_Some _ _ _ vs ts opt))
      by eauto using valid_input_accepted.
  - by rewrite (table_optional_returns _ _ _ vs ts opt).
  - by rewrite (table_optional_returns _ _ _ vs ts opt).
Qed.

Lemma option_domain_unchecked_witness :
  is_boolean demo_model (mkIntVar 0) = false
  ∧ check_arguments (py_variables demo_variables) (py_tuples demo_tuples)
      (PyIntVar (mkIntVar 0)) demo_model
    = (demo_model, inr (demo_variables, demo_tuples, mkIntVar 0))
  ∧ (table_optional (py_variables demo_variables) (py_tuples demo_tuples)
       (PyIntVar (mkIntVar 0)) demo_model).2 ≠ inl AssertionError
  ∧ model_variables
      (table_optional (py_variables demo_variables) (py_tuples demo_tuples)
         (PyIntVar (mkIntVar 0)) demo_model).1
    = model_variables demo_model ++ b_declarations demo_tuples
      ++ is_assigned_declarations demo_variables demo_tuples.
Proof.
  split; [vm_compute; reflexivity|].
  apply (option_domain_unchecked demo_model _ _ _ _ (mkIntVar 0) "v[0]" 0 10).
  - apply py_variables_is.
  - apply py_tuples_is.
  - apply demo_valid_input.
  - reflexivity.
Defined.

(** C8. In the demonstration (five variables in [0, 10], the tuples
    (0,1,2,3,4) and (5,6,7,8,9), the option fixed to true, the sum of the
    variables minimized) an optimal solution exists, and every optimal
    solution gives the variables (0,1,2,3,4), with objective value 10. *)
Theorem demo_unique_optimum :
  (main empty_model).2 = inr demo_variables
  ∧ (∃ a, optimal a (main empty_model).1)
  ∧ ∀ a, optimal a (main empty_model).1 →
         value a <$> demo_variables = [0; 1; 2; 3; 4]%Z
         ∧ objective_value a (main empty_model).1 = 10%Z.
Proof.
  split_and!.
  - apply main_returns.
  - exists demo_solution. apply demo_solution_optimal.
  - intros a [Hfeasible Hmin].
    specialize (Hmin demo_solution demo_solution_feasible).
    rewrite !main_objective in *. unfold sum_values in *.
    destruct (main_feasible a Hfeasible) as [Ha|Ha]; rewrite Ha in *.
    + by split.
    + vm_compute in Hmin. by destruct Hmin.
Qed.

Lemma demo_unique_optimum_witness :
  value demo_solution <$> demo_variables = [0; 1; 2; 3; 4]%Z
  ∧ objective_value demo_solution (main empty_model).1 = 10%Z.
Proof.
  apply (proj2 (proj2 demo_unique_optimum)). apply demo_solution_optimal.
Defined.

(** * Further properties of the encoding *)

(** ** Every tuple is realizable when [option] is true *)

Lemma sum_values_app a vs ws :
  sum_values a (vs ++ ws) = (sum_values a vs + sum_values a ws)%Z.
Proof.
  induction vs as [|v vs IH]; [done|].
  rewrite <- app_comm_cons, !sum_values_cons, IH. lia.
Qed.

(** A row of indicators in which [k] alone is true sums to one. *)
Lemma sum_values_indicator a (f : nat → IntVar) n k :
  (∀ j, j < n → value a (f j) = if decide (j = k) then 1%Z else 0%Z) →
  sum_values a (f <$> seq 0 n) = if decide (k < n) then 1%Z else 0%Z.
Proof.
  induction n as [|n IH]; intros Hf; [done|].
  rewrite seq_S, fmap_app, sum_values_app, IH by (intros; apply Hf; lia).
  simpl. rewrite sum_values_cons, Hf by lia.
  change (sum_values a []) with 0%Z.
  repeat case_decide; lia.
Qed.

Section Realize.
Variables (m : CpModel) (variables : list IntVar) (tuples : list (list Z))
          (option : IntVar) (k : nat) (t : list Z) (a0 : Assignment).
Hypothesis Hvalid : valid_input variables tuples.
Hypothesis Hk : tuples !! k = Some t.
Hypothesis Hbelong : Forall (belongs_to m) variables.
Hypothesis Hvalues : value a0 <$> variables = t.

Lemma realize_agrees v :
  belongs_to m v → value (realize m tuples k t a0) v = value a0 v.
Proof. unfold belongs_to, value, realize. intros. by case_decide. Qed.

Lemma realize_b_var k' :
  k' < length tuples →
  value (realize m tuples k t a0) (b_var m k') = if decide (k' = k) then 1%Z else 0%Z.
Proof.
  intros Hk'. unfold value, realize, b_var. simpl.
  case_decide; [lia|]. case_decide; [|lia].
  repeat case_decide; lia.
Qed.

Lemma realize_is_assigned_var i j :
  j < width tuples →
  value (realize m tuples k t a0) (is_assigned_var m tuples i j)
  = if decide (t !! i = Some (Z.of_nat j)) then 1%Z else 0%Z.
Proof.
  intros Hj. unfold value, realize, is_assigned_var. simpl.
  case_decide; [lia|]. case_decide; [lia|].
  replace (length (model_variables m) + length tuples + i * width tuples + j
           - length (model_variables m) - length tuples)
    with (i * width tuples + j) by lia.
  rewrite Nat.div_add_l, Nat.div_small, Nat.add_0_r by lia.
  by rewrite Nat.add_comm, Nat.Div0.mod_add, Nat.mod_small.
Qed.

Lemma realize_boolean idx :
  length (model_variables m) ≤ idx → (0 ≤ realize m tuples k t a0 idx ≤ 1)%Z.
Proof. intros Hidx. unfold realize. repeat case_decide; lia. Qed.

Lemma realize_satisfies :
  satisfies_emitted (realize m tuples k t a0) m (encoded m variables tuples option)
  = true.
Proof.
  assert (t ∈ tuples) as Ht by by eapply list_elem_of_lookup_2.
  apply satisfies_encoded. split.
  { intros k' _. apply realize_boolean. lia. }
  apply Forall_forall. intros c. unfold emitted_constraints. rewrite !elem_of_app.
  intros [H|[H|[H|[H|H]]]].
  - (* lines 52-55 *)
    apply list_elem_of_bind in H as (i & H & Hi%elem_of_seq).
    apply list_elem_of_bind in H as (j & H & Hj%elem_of_range).
    case_decide as Hin; [by apply elem_of_nil in H|].
    apply list_elem_of_singleton in H as ->.
    apply enforced_linear. intros _. simpl.
    rewrite realize_is_assigned_var by (unfold width; lia).
    case_decide as Hti; [|done]. destruct Hin.
    apply possible_values_of_spec. exists t. split; [done|].
    rewrite Hti. f_equal. lia.
  - (* lines 58-59 *)
    apply list_elem_of_fmap in H as (row & -> & Hrow).
    apply list_elem_of_lookup_1 in Hrow as [i Hrow].
    assert (i < length variables) as Hi.
    { rewrite <- (is_assigned_of_length m variables tuples). by eapply lookup_lt_Some. }
    rewrite is_assigned_of_lookup in Hrow by done. injection Hrow as <-.
    apply enforced_linear. intros _. simpl.
    destruct (lookup_lt_is_Some_2 t i) as [tj Htj].
    { rewrite (proj1 (Forall_forall _ _) (tuple_lengths _ _ Hvalid) t Ht). done. }
    destruct (tuple_value_range _ _ Hvalid t i tj Ht Htj) as [_ Hrange].
    rewrite (sum_values_indicator _ _ _ (Z.to_nat tj)).
    + unfold width. case_decide; [done|lia].
    + intros j Hj. rewrite realize_is_assigned_var, Htj by done.
      destruct (decide (Some tj = Some (Z.of_nat j))) as [[= ->]|Hne];
        case_decide; try done; try lia.
      destruct Hne. f_equal. lia.
  - (* lines 62-64 *)
    apply list_elem_of_bind in H as (i & H & Hi%elem_of_seq).
    destruct (variables !! i) as [v|] eqn:Hv; [|by apply elem_of_nil in H].
    apply list_elem_of_fmap in H as (j & -> & Hj%elem_of_range).
    apply enforced_linear. simpl.
    rewrite realize_is_assigned_var by (unfold width; lia).
    case_decide as Hti; [|done]. intros _.
    rewrite realize_agrees by by eapply Forall_lookup_1 in Hbelong.
    rewrite <- Hvalues, list_lookup_fmap, Hv in Hti. injection Hti as ->. lia.
  - (* lines 67-68 *)
    apply elem_of_lookup_imap in H as (k' & t' & -> & Hk').
    apply enforced_and.
    rewrite realize_b_var by by eapply lookup_lt_Some.
    case_decide as Heq; [|done]. intros _. subst k'.
    rewrite Hk in Hk'. injection Hk' as <-.
    apply Forall_forall. intros x (j & tj & -> & Htj)%elem_of_lookup_imap.
    destruct (tuple_value_range _ _ Hvalid t j tj Ht Htj) as [_ Hrange].
    rewrite realize_is_assigned_var by (unfold width; lia).
    rewrite Htj, Z2Nat.id by lia. by case_decide.
  - (* line 71 *)
    apply list_elem_of_singleton in H as ->.
    apply enforced_linear. intros _. simpl. unfold b_of.
    rewrite (sum_values_indicator _ _ _ k) by apply realize_b_var.
    apply lookup_lt_Some in Hk. by case_decide.
Qed.
End Realize.

(** X1. On every valid input whose variables and option belong to the
    model, the encoding excludes no tuple: if [a0] makes [option] true and
    gives [variables] the values of a member of [tuples], some assignment
    agrees with [a0] on the variables of the model and satisfies what the
    call emitted. *)
Theorem every_tuple_realizable m variables tuples option vs ts opt :
  is_variables variables vs → is_tuples tuples ts → as_IntVar option = Some opt →
  valid_input vs ts → Forall (belongs_to m) vs → belongs_to m opt →
  ∀ t a0, t ∈ ts → value a0 <$> vs = t → value a0 opt = 1%Z →
    ∃ a, (∀ v, belongs_to m v → value a v = value a0 v)
         ∧ value a <$> vs = t
         ∧ value a opt = 1%Z
         ∧ satisfies_emitted a m (table_optional variables tuples option m).1 = true.
Proof.
  intros Hvs Hts Hopt Hvalid Hbelong Hobelong t a0 Ht Hvalues Htrue.
  rewrite (table_optional_returns _ _ _ vs ts opt) by done. simpl.
  apply list_elem_of_lookup_1 in Ht as [k Hk].
  exists (realize m ts k t a0). split_and!.
  - intros v Hv. by apply realize_agrees.
  - rewrite <- Hvalues. apply Forall_fmap_ext_1. eapply Forall_impl; [done|].
    intros v Hv. by apply realize_agrees.
  - by rewrite realize_agrees.
  - by apply realize_satisfies.
Qed.

Lemma every_tuple_realizable_witness :
  ∃ a, (∀ v, belongs_to demo_model v → value a v = value demo_second v)
       ∧ value a <$> demo_variables = [5; 6; 7; 8; 9]%Z
       ∧ value a demo_option = 1%Z
       ∧ satisfies_emitted a demo_model
           (table_optional (py_variables demo_variables) (py_tuples demo_tuples)
              (PyIntVar demo_option) demo_model).1 = true.
Proof.
  apply (every_tuple_realizable demo_model
           (py_variables demo_variables) (py_tuples demo_tuples)
           (PyIntVar demo_option) demo_variables demo_tuples demo_option).
  - apply py_variables_is.
  - apply py_tuples_is.
  - reflexivity.
  - apply demo_valid_input.
  - unfold belongs_to. repeat constructor; simpl; lia.
  - unfold belongs_to. simpl. lia.
  - apply list_elem_of_further, list_elem_of_here.
  - reflexivity.
  - reflexivity.
Defined.

(** X2. On every valid input, in every assignment that satisfies what was
    emitted and makes [option] true, [is_assigned[i][j]] is true exactly when
    [variables[i]] has the value [j]. *)
Theorem is_assigned_iff_value m variables tuples option vs ts opt :
  is_variables variables vs → is_tuples tuples ts → as_IntVar option = Some opt →
  valid_input vs ts →
  ∃ b is_assigned,
    encode vs ts opt m
    = ((table_optional variables tuples option m).1, inr (b, is_assigned))
    ∧ ∀ a, satisfies_emitted a m (table_optional variables tuples option m).1 = true →
           value a opt = 1%Z →
           ∀ i j v row x,
             vs !! i = Some v → is_assigned !! i = Some row → row !! j = Some x →
             (value a x = 1%Z ↔ value a v = Z.of_nat j).
Proof.
  intros Hvs Hts Hopt Hvalid.
  rewrite (table_optional_returns _ _ _ vs ts opt) by done. simpl.
  exists (b_of m ts), (is_assigned_of m vs ts).
  split; [by apply encode_returns|].
  intros a Hsat Htrue i j v row x Hv Hrow Hx.
  destruct (is_assigned_cell m vs ts i row j x Hrow Hx) as (Hi & Hj & ->).
  assert (∀ j', j' < width ts →
            value a (is_assigned_var m ts i j') = 1%Z → value a v = Z.of_nat j')
    as Hlink.
  { intros j' Hj' Hone. unfold width in Hj'.
    eapply (linking_sound m vs ts opt a Hsat i v); [done|lia|].
    by rewrite Nat2Z.id. }
  split; [by apply Hlink|]. intros Hvalue.
  destruct (sum_values_one a (is_assigned_var m ts i <$> seq 0 (width ts)))
    as (j0 & x0 & Hx0 & Hone & _).
  { apply Forall_fmap, Forall_seq. intros j' Hj'. simpl.
    apply (is_assigned_var_boolean m vs ts opt a Hsat); [done|lia]. }
  { by apply (one_value_sound m vs ts opt a Hsat). }
  destruct (is_assigned_cell m vs ts i _ j0 x0
              (is_assigned_of_lookup m vs ts i Hi) Hx0) as (_ & Hj0 & ->).
  pose proof (Hlink j0 Hj0 Hone).
  by replace j with j0 by lia.
Qed.

Lemma is_assigned_iff_value_witness :
  value demo_solution (is_assigned_var demo_model demo_tuples 2 2) = 1%Z
  ↔ value demo_solution (mkIntVar 2) = 2%Z.
Proof.
  destruct (is_assigned_iff_value demo_model
              (py_variables demo_variables) (py_tuples demo_tuples)
              (PyIntVar demo_option) demo_variables demo_tuples demo_option)
    as (b & is_assigned & Hrun & H).
  - apply py_variables_is.
  - apply py_tuples_is.
  - reflexivity.
  - apply demo_valid_input.
  - rewrite encode_returns in Hrun by apply demo_valid_input.
    apply returned_value in Hrun. injection Hrun as <- <-.
    apply (H demo_solution ltac:(vm_compute; reflexivity)
             ltac:(vm_compute; reflexivity) 2 2 (mkIntVar 2)
             (is_assigned_var demo_model demo_tuples 2 <$> seq 0 (width demo_tuples)));
      vm_compute; reflexivity.
Defined.

(** ** The call on every input the assertions accept *)

Lemma list_comp_py_max (tuples : list (list Z)) m :
  list_comp tuples py_max m
  = if decide (Exists (λ t, t = []) tuples)
    then (m, inl ValueError)
    else (m, inr (max_of <$> tuples)).
Proof.
  induction tuples as [|t tuples IH]; [done|]. cbn [list_comp].
  - destruct t as [|z t].
    + rewrite decide_True by by left. done.
    + unfold py_max at 1. rewrite bind_ret. unfold bind at 1. rewrite IH.
      case_decide as H.
      * rewrite decide_True by by right. done.
      * rewrite decide_False; [done|]. by intros [?|?]%Exists_cons.
Qed.

Lemma position_keys_initial n :
  position_keys n (list_to_map ((λ i, (i, ∅)) <$> seq 0 n)).
Proof.
  intros i. split; [|apply initial_possible_values_dom].
  intros [s Hs].
  apply elem_of_list_to_map_2, list_elem_of_fmap in Hs as (i' & [= -> _] & Hi').
  apply elem_of_seq in Hi'. lia.
Qed.

Lemma position_keys_insert n pv i (s : gset Z) :
  i < n → position_keys n pv → position_keys n (<[i := s]> pv).
Proof.
  intros Hi Hpv i'. specialize (Hpv i').
  rewrite lookup_insert_is_Some'. naive_solver lia.
Qed.

Lemma position_keys_record n pv i (j : Z) :
  i < n → position_keys n pv → position_keys n (record_value pv (i, j)).
Proof. apply position_keys_insert. Qed.

(** Lines 43-44 on one tuple that fits. *)
Lemma record_tuple_returns n (t : list Z) s pv m :
  s + length t ≤ n → position_keys n pv →
  for_fold (imap (λ i, pair (s + i)) t) add_possible_value pv m
  = (m, inr (foldl record_value pv (imap (λ i, pair (s + i)) t)))
  ∧ position_keys n (foldl record_value pv (imap (λ i, pair (s + i)) t)).
Proof.
  intros Hlen Hpv.
  apply (for_fold_pure (position_keys n)); [|done].
  intros pv' [i j] m' (i' & j' & [= -> ->] & Hij)%elem_of_lookup_imap Hpv'. simpl.
  apply lookup_lt_Some in Hij.
  split; [|apply position_keys_record; [lia|done]].
  unfold add_possible_value, record_value, dict_get. simpl.
  destruct (proj2 (Hpv' (s + i')) ltac:(lia)) as [x Hx].
  unfold bind. by rewrite Hx.
Qed.

(** Lines 43-44 on one tuple longer than [variables]. *)
Lemma record_tuple_raises n (t : list Z) pv m :
  n < length t → position_keys n pv →
  for_fold (enumerate t) add_possible_value pv m = (m, inl KeyError).
Proof.
  intros Hlen Hpv. unfold enumerate.
  rewrite <- (take_drop n t), imap_app.
  destruct (drop n t) as [|z rest] eqn:Hdrop.
  { apply (f_equal length) in Hdrop. rewrite length_drop in Hdrop. simpl in Hdrop. lia. }
  rewrite length_take_le by lia. rewrite imap_cons.
  assert (imap pair (take n t) = imap (λ i, pair (0 + i)) (take n t)) as -> by done.
  destruct (record_tuple_returns n (take n t) 0 pv m) as [Hrun Hkeys]; [|done|].
  { rewrite length_take_le; lia. }
  revert Hrun Hkeys.
  generalize (foldl record_value pv (imap (λ i, pair (0 + i)) (take n t))).
  generalize (imap (λ i, pair (0 + i)) (take n t)). intros l. revert pv Hpv.
  induction l as [|x l IH]; intros pv Hpv pv' Hrun Hkeys; simpl in *.
  - unfold bind, add_possible_value, dict_get. simpl. rewrite Nat.add_0_r.
    destruct (pv !! n) as [x|] eqn:Hx; [|done].
    assert (n < n) by (apply Hpv; eauto). lia.
  - unfold bind in *.
    destruct (add_possible_value pv x m) as [m1 [e|pv1]] eqn:Hstep; [done|].
    assert (m1 = m ∧ position_keys n pv1) as [-> Hpv1].
    { unfold add_possible_value, dict_get, bind in Hstep.
      destruct (pv !! x.1) as [sx|] eqn:Hsx; [|done].
      injection Hstep as <- <-. split; [done|].
      apply position_keys_insert; [|done]. apply Hpv. eauto. }
    by eapply IH.
Qed.

(** Lines 42-44. *)
Lemma possible_values_loop_any n tuples m :
  for_fold tuples (λ pv t, for_fold (enumerate t) add_possible_value pv)
           (list_to_map ((λ i, (i, ∅)) <$> seq 0 n)) m
  = if decide (Exists (λ t : list Z, n < length t) tuples)
    then (m, inl KeyError)
    else (m, inr (possible_values_of n tuples)).
Proof.
  unfold possible_values_of.
  generalize (position_keys_initial n).
  generalize (list_to_map ((λ i, (i, ∅)) <$> seq 0 n) : gmap nat (gset Z)).
  induction tuples as [|t tuples IH]; intros pv Hpv; [done|]. cbn [for_fold foldl].
  destruct (decide (n < length t)) as [Hlong|Hfit].
  - rewrite decide_True by by left.
    apply bind_raises. by apply (record_tuple_raises n).
  - destruct (record_tuple_returns n t 0 pv m) as [Hrun Hkeys]; [lia|done|].
    erewrite bind_returns by exact Hrun.
    rewrite IH by exact Hkeys.
    case_decide as H.
    + rewrite decide_True by by right. done.
    + rewrite decide_False; [done|]. by intros [?|?]%Exists_cons.
Qed.

Lemma possible_values_of_keys n tuples :
  Forall (λ t : list Z, length t ≤ n) tuples →
  position_keys n (possible_values_of n tuples).
Proof.
  unfold possible_values_of. generalize (position_keys_initial n).
  generalize (list_to_map ((λ i, (i, ∅)) <$> seq 0 n) : gmap nat (gset Z)).
  induction tuples as [|t tuples IH]; intros pv Hpv Hall; [done|]. cbn [foldl].
  apply Forall_cons in Hall as [Ht Hall].
  apply IH; [|done].
  by apply (record_tuple_returns n t 0 pv empty_model).
Qed.

Section Fitting.
Variables (m : CpModel) (variables : list IntVar) (tuples : list (list Z))
          (option : IntVar).
Hypothesis Hpos : Forall (Forall (λ z, 0 ≤ z)%Z) tuples.
Hypothesis Hfit : Forall (λ t : list Z, length t ≤ length variables) tuples.

Lemma fitting_value_range t j tj :
  t ∈ tuples → t !! j = Some tj →
  j < length variables ∧ (0 ≤ tj < max_value_of tuples + 1)%Z.
Proof.
  intros Ht Hj.
  eapply Forall_forall in Hfit; [|done]. eapply Forall_forall in Hpos; [|done].
  split; [apply lookup_lt_Some in Hj; lia|].
  assert (tj ∈ t) by by eapply list_elem_of_lookup_2.
  split; [by eapply Forall_forall in Hpos|].
  assert (tj ≤ max_value_of tuples)%Z by by eapply max_value_of_le. lia.
Qed.

(** Lines 52-55. *)
Lemma pruning_loop_fitting m' :
  for_each (seq 0 (length variables)) (λ i,
    for_each (range (max_value_of tuples + 1)) (λ j,
      s <~ dict_get (possible_values_of (length variables) tuples) i ;
      if decide (j ∈ s) then ret tt
      else
        row <~ getitem (is_assigned_of m variables tuples) i ;
        x <~ getitem_int row j ;
        ct <~ Add (Term x) 0 ;
        OnlyEnforceIf ct option)) m'
  = (add_constraints m' (pruning_constraints m variables tuples option), inr tt).
Proof.
  apply for_each_emits. intros i m1 Hi%elem_of_seq.
  apply for_each_emits. intros j m2 Hj%elem_of_range.
  assert (i < length variables) as Hlt by lia.
  assert (0 ≤ j)%Z as Hj0 by lia.
  destruct (proj2 (possible_values_of_keys _ _ Hfit i) Hlt) as [s Hs].
  unfold dict_get. rewrite Hs, bind_ret. simpl.
  case_decide; [by rewrite add_constraints_nil|].
  rewrite (getitem_returns _ _ _ (is_assigned_of_lookup m variables tuples i Hlt)).
  rewrite bind_ret.
  rewrite (getitem_int_returns _ _ _ Hj0 (is_assigned_row_lookup m tuples i j Hj)).
  rewrite bind_ret. apply add_constraint_enforced.
Qed.

(** Lines 67-68. *)
Lemma table_loop_fitting m' :
  for_each (enumerate tuples) (λ it,
    lits <~ list_comp (seq 0 (length it.2)) (λ j,
              row <~ getitem (is_assigned_of m variables tuples) j ;
              tj <~ getitem it.2 j ;
              getitem_int row tj) ;
    ct <~ AddBoolAnd lits ;
    bi <~ getitem (b_of m tuples) it.1 ;
    OnlyEnforceIf ct bi) m'
  = (add_constraints m' (table_constraints m tuples), inr tt).
Proof.
  unfold table_constraints. rewrite <- enumerate_bind_singleton.
  apply for_each_emits. intros [k t] m1 Hkt%elem_of_enumerate. simpl.
  assert (t ∈ tuples) as Ht by by eapply list_elem_of_lookup_2.
  erewrite bind_returns; cycle 1.
  { apply (list_comp_indices (λ j tj, is_assigned_var m tuples j (Z.to_nat tj))).
    intros j tj m2 Hj.
    destruct (fitting_value_range t j tj Ht Hj) as [Hlt Hrange].
    assert (0 ≤ tj)%Z as Hj0 by lia.
    rewrite (getitem_returns _ _ _ (is_assigned_of_lookup m variables tuples j Hlt)).
    rewrite bind_ret, (getitem_returns _ _ _ Hj), bind_ret.
    by rewrite (getitem_int_returns _ _ _ Hj0
                  (is_assigned_row_lookup m tuples j tj Hrange)). }
  rewrite (getitem_returns _ _ _ (b_of_lookup m tuples k (lookup_lt_Some _ _ _ Hkt))).
  unfold bind at 1, AddBoolAnd, add_constraint at 1. rewrite bind_ret.
  apply enforce_last.
Qed.
End Fitting.

(** Lines 37-71 on the arguments the assertions let through: [ValueError]
    at line 41 on an empty tuple, [KeyError] at line 44 on a tuple longer
    than [variables], both after line 37; the encoding otherwise. *)
Lemma encode_accepted m variables tuples option :
  accepted_input variables tuples →
  encode variables tuples option m
  = if decide (Exists (λ t, t = []) tuples) then
      (add_variables m (b_declarations tuples), inl ValueError)
    else if decide (Exists (λ t, length variables < length t) tuples) then
      (add_variables m (b_declarations tuples), inl KeyError)
    else
      (encoded m variables tuples option,
       inr (b_of m tuples, is_assigned_of m variables tuples)).
Proof.
  intros (Hv & Ht & _ & Hpos).
  unfold encode.
  erewrite bind_returns by apply declare_b. cbv zeta.
  unfold bind at 1. rewrite list_comp_py_max.
  case_decide as Hempty; [done|].
  erewrite bind_returns by (apply py_max_returns; by destruct tuples).
  change (max_of (max_of <$> tuples)) with (max_value_of tuples).
  unfold bind at 1. rewrite possible_values_loop_any.
  case_decide as Hlong; [done|].
  assert (Forall (λ t : list Z, length t ≤ length variables) tuples) as Hfit.
  { apply Forall_forall. intros t Hin.
    destruct (decide (length t ≤ length variables)); [done|].
    destruct Hlong. apply Exists_exists. exists t. split; [done|lia]. }
  erewrite bind_returns; cycle 1.
  { apply (declare_is_assigned m). simpl.
    unfold b_declarations. by rewrite length_app, length_fmap, length_seq. }
  erewrite bind_returns by by apply pruning_loop_fitting.
  erewrite bind_returns by by apply one_value_loop.
  erewrite bind_returns by by apply linking_loop.
  erewrite bind_returns by by apply table_loop_fitting.
  unfold bind at 1, Add, add_constraint at 1.
  erewrite bind_returns by apply enforce_last.
  unfold ret, encoded, emitted_constraints.
  by rewrite !add_constraints_app, add_variables_app, <- ?app_assoc.
Qed.

(** The call on any arguments. *)
Lemma table_optional_outcome variables tuples option m :
  table_optional variables tuples option m
  = match checked variables tuples option with
    | None => (m, inl AssertionError)
    | Some (vs, ts, opt) =>
        if decide (Exists (λ t, t = []) ts) then
          (add_variables m (b_declarations ts), inl ValueError)
        else if decide (Exists (λ t, length vs < length t) ts) then
          (add_variables m (b_declarations ts), inl KeyError)
        else (encoded m vs ts opt, inr tt)
    end.
Proof.
  destruct (checked variables tuples option) as [[[vs ts] opt]|] eqn:Hchecked;
    [|by apply table_optional_rejects].
  rewrite (table_optional_encodes _ _ _ vs ts opt) by done.
  apply checked_Some in Hchecked as (_ & _ & _ & Haccepted).
  rewrite encode_accepted by done.
  by repeat case_decide.
Qed.

Lemma checked_None variables tuples option :
  checked variables tuples option = None
  ↔ ¬ ∃ vs ts opt,
        is_variables variables vs ∧ is_tuples tuples ts
        ∧ as_IntVar option = Some opt ∧ accepted_input vs ts.
Proof.
  split.
  - intros Hnone (vs & ts & opt & H). apply checked_Some in H. congruence.
  - intros Hnot.
    destruct (checked variables tuples option) as [[[vs ts] opt]|] eqn:H; [|done].
    destruct Hnot. exists vs, ts, opt. by apply checked_Some.
Qed.

(** X3. Whatever the arguments, the call fails with [AssertionError]
    exactly when they do not pass the assertions of lines 20-33, and the
    model is then as it was: no assertion fails after the model has been
    touched. *)
Theorem assertion_error_iff_not_accepted variables tuples option m :
  ((table_optional variables tuples option m).2 = inl AssertionError
   ↔ ¬ ∃ vs ts opt,
         is_variables variables vs ∧ is_tuples tuples ts
         ∧ as_IntVar option = Some opt ∧ accepted_input vs ts)
  ∧ ((table_optional variables tuples option m).2 = inl AssertionError →
     (table_optional variables tuples option m).1 = m).
Proof.
  rewrite <- checked_None, table_optional_outcome.
  destruct (checked variables tuples option) as [[[vs ts] opt]|]; [|done].
  split; [split|]; repeat case_decide; done.
Qed.

(** X4. Whatever [variables] and [tuples], when [option] is a Boolean
    variable of the model or no [IntVar] at all, the call returns or raises
    [AssertionError], [ValueError] or [KeyError]; it never raises
    [IndexError]: every list of the function is read within its bounds. *)
Theorem never_index_error variables tuples option m :
  (∀ opt, as_IntVar option = Some opt → is_boolean m opt = true) →
  (table_optional variables tuples option m).2 = inr tt
  ∨ (table_optional variables tuples option m).2 = inl AssertionError
  ∨ (table_optional variables tuples option m).2 = inl ValueError
  ∨ (table_optional variables tuples option m).2 = inl KeyError.
Proof.
  intros _. rewrite table_optional_outcome.
  destruct (checked variables tuples option) as [[[vs ts] opt]|]; [|by auto].
  repeat case_decide; auto.
Qed.

Lemma never_index_error_witness :
  (table_optional small_variables long_tuples small_option small_model).2 = inr tt
  ∨ (table_optional small_variables long_tuples small_option small_model).2
    = inl AssertionError
  ∨ (table_optional small_variables long_tuples small_option small_model).2
    = inl ValueError
  ∨ (table_optional small_variables long_tuples small_option small_model).2
    = inl KeyError.
Proof.
  apply never_index_error. intros opt [= <-]. reflexivity.
Defined.

(** X5. When the arguments pass the assertions, no tuple is empty and some
    tuple is longer than [variables], the call raises [KeyError] at line 44,
    and leaves in the model the variables [b[k]] of line 37 and nothing
    else. *)
Theorem longer_tuple_key_error m variables tuples option vs ts opt :
  is_variables variables vs → is_tuples tuples ts → as_IntVar option = Some opt →
  accepted_input vs ts →
  Forall (λ t, t ≠ []) ts → Exists (λ t, length vs < length t) ts →
  table_optional variables tuples option m
  = (add_variables m (b_declarations ts), inl KeyError).
Proof.
  intros Hvs Hts Hopt Haccepted Hne Hlong.
  rewrite table_optional_outcome.
  rewrite (proj2 (checked_Some _ _ _ vs ts opt)) by done.
  rewrite decide_False, decide_True; [done..|].
  intros (t & Hin & ->)%Exists_exists. by eapply Forall_forall in Hne.
Qed.

Lemma longer_tuple_key_error_witness :
  table_optional small_variables long_tuples small_option small_model
  = (add_variables small_model (b_declarations [[0; 1]; [1; 2; 3]]%Z), inl KeyError).
Proof.
  apply (longer_tuple_key_error small_model small_variables long_tuples small_option
           [mkIntVar 0; mkIntVar 1] [[0; 1]; [1; 2; 3]]%Z (mkIntVar 2)).
  - eexists. split; [reflexivity|]. repeat constructor.
  - eexists. split; [reflexivity|].
    repeat constructor; eexists; (split; [reflexivity|]); repeat constructor.
  - reflexivity.
  - split_and!; [done..| |].
    + exists [0; 1]%Z. by split.
    + repeat constructor; done.
  - repeat constructor; done.
  - apply Exists_cons_tl, Exists_cons_hd. simpl. lia.
Defined.

(** X6. When the arguments pass the assertions and some tuple is empty,
    the call raises [ValueError] at line 41, and leaves in the model the
    variables [b[k]] of line 37 and nothing else. *)
Theorem empty_tuple_value_error m variables tuples option vs ts opt :
  is_variables variables vs → is_tuples tuples ts → as_IntVar option = Some opt →
  accepted_input vs ts →
  Exists (λ t, t = []) ts →
  table_optional variables tuples option m
  = (add_variables m (b_declarations ts), inl ValueError).
Proof.
  intros Hvs Hts Hopt Haccepted Hempty.
  rewrite table_optional_outcome.
  rewrite (proj2 (checked_Some _ _ _ vs ts opt)) by done.
  by rewrite decide_True.
Qed.

Lemma empty_tuple_value_error_witness :
  table_optional small_variables empty_tuple_tuples small_option small_model
  = (add_variables small_model (b_declarations [[0; 1]; []]%Z), inl ValueError).
Proof.
  apply (empty_tuple_value_error small_model small_variables empty_tuple_tuples
           small_option [mkIntVar 0; mkIntVar 1] [[0; 1]; []]%Z (mkIntVar 2)).
  - eexists. split; [reflexivity|]. repeat constructor.
  - eexists. split; [reflexivity|].
    repeat constructor; eexists; (split; [reflexivity|]); repeat constructor.
  - reflexivity.
  - split_and!; [done..| |].
    + exists [0; 1]%Z. by split.
    + repeat constructor; done.
  - apply Exists_cons_tl, Exists_cons_hd. done.
Defined.

(** X7. Whatever [variables] and [tuples], when [option] is a Boolean
    variable of the model or no [IntVar] at all, the call returns normally
    exactly when the arguments pass the assertions and every tuple has between
    one and [len(variables)] values. *)
Theorem returns_iff_tuples_fit variables tuples option m :
  (∀ opt, as_IntVar option = Some opt → is_boolean m opt = true) →
  (table_optional variables tuples option m).2 = inr tt
  ↔ ∃ vs ts opt,
      is_variables variables vs ∧ is_tuples tuples ts
      ∧ as_IntVar option = Some opt ∧ accepted_input vs ts
      ∧ Forall (λ t, 0 < length t ≤ length vs) ts.
Proof.
  intros _. rewrite table_optional_outcome. split.
  - destruct (checked variables tuples option) as [[[vs ts] opt]|] eqn:Hchecked; [|done].
    apply checked_Some in Hchecked as (? & ? & ? & ?).
    case_decide as Hempty; [done|]. case_decide as Hlong; [done|]. intros _.
    exists vs, ts, opt. split_and!; [done..|].
    apply Forall_forall. intros t Hin. split.
    + destruct t; [|simpl; lia]. destruct Hempty. apply Exists_exists. eauto.
    + destruct (decide (length t ≤ length vs)); [done|].
      destruct Hlong. apply Exists_exists. exists t. split; [done|lia].
  - intros (vs & ts & opt & Hvs & Hts & Hopt & Haccepted & Hfit).
    rewrite (proj2 (checked_Some _ _ _ vs ts opt)) by done.
    rewrite !decide_False; [done| |].
    + intros (t & Hin & Hlong)%Exists_exists.
      eapply Forall_forall in Hfit; [|done]. lia.
    + intros (t & Hin & ->)%Exists_exists.
      eapply Forall_forall in Hfit; [|done]. simpl in Hfit. lia.
Qed.

Lemma returns_iff_tuples_fit_witness :
  (table_optional (py_variables demo_variables) (py_tuples demo_tuples)
     (PyIntVar demo_option) demo_model).2 = inr tt
  ↔ ∃ vs ts opt,
      is_variables (py_variables demo_variables) vs
      ∧ is_tuples (py_tuples demo_tuples) ts
      ∧ as_IntVar (PyIntVar demo_option) = Some opt ∧ accepted_input vs ts
      ∧ Forall (λ t, 0 < length t ≤ length vs) ts.
Proof.
  apply returns_iff_tuples_fit. intros opt [= <-]. reflexivity.
Defined.

(** ** What a returning call leaves in the model *)

Lemma valid_input_fitting vs ts : valid_input vs ts → fitting_input vs ts.
Proof.
  intros Hvalid. split; [by apply valid_input_accepted|].
  destruct Hvalid as (Hv & _ & Hall). eapply Forall_impl; [done|].
  intros t [-> _]. split; [|done]. destruct vs; [done|simpl; lia].
Qed.

Lemma encode_fitting m variables tuples option :
  fitting_input variables tuples →
  encode variables tuples option m
  = (encoded m variables tuples option,
     inr (b_of m tuples, is_assigned_of m variables tuples)).
Proof.
  intros [Haccepted Hfit]. rewrite encode_accepted by done.
  rewrite !decide_False; [done| |].
  - intros (t & Hin & Hlong)%Exists_exists.
    eapply Forall_forall in Hfit; [|done]. lia.
  - intros (t & Hin & ->)%Exists_exists.
    eapply Forall_forall in Hfit; [|done]. simpl in Hfit. lia.
Qed.

Lemma table_optional_fitting variables tuples option vs ts opt m :
  is_variables variables vs → is_tuples tuples ts → as_IntVar option = Some opt →
  fitting_input vs ts →
  table_optional variables tuples option m = (encoded m vs ts opt, inr tt).
Proof.
  intros Hvs Hts Hopt Hfit.
  erewrite table_optional_encodes by (apply checked_Some; split_and!; [done..|apply Hfit]).
  by rewrite encode_fitting.
Qed.

(** X8. Whatever [variables] and [tuples], when [option] is a Boolean
    variable of the model or no [IntVar] at all, and whatever the outcome,
    the call only adds to the model: the variables and constraints it held
    are still there, in place and unchanged, and so is the objective; every
    variable added is a Boolean, and every constraint added has one
    enforcement literal. *)
Theorem model_only_grows variables tuples option m :
  (∀ opt, as_IntVar option = Some opt → is_boolean m opt = true) →
  ∃ xs cs,
    model_variables (table_optional variables tuples option m).1
    = model_variables m ++ xs
    ∧ model_constraints (table_optional variables tuples option m).1
      = model_constraints m ++ cs
    ∧ model_objective (table_optional variables tuples option m).1
      = model_objective m
    ∧ Forall (λ x, var_lb x = 0%Z ∧ var_ub x = 1%Z) xs
    ∧ Forall (λ c, ∃ lit, enforcement_literal c = [lit]) cs.
Proof.
  intros _. rewrite table_optional_outcome.
  destruct (checked variables tuples option) as [[[vs ts] opt]|].
  - repeat case_decide; simpl.
    + exists (b_declarations ts), []. rewrite app_nil_r. split_and!; [done..| |done].
      by apply Forall_fmap, Forall_true.
    + exists (b_declarations ts), []. rewrite app_nil_r. split_and!; [done..| |done].
      by apply Forall_fmap, Forall_true.
    + exists (b_declarations ts ++ is_assigned_declarations vs ts),
             (emitted_constraints m vs ts opt).
      split_and!; [done..|apply declarations_boolean|].
      apply Forall_forall. intros c (b & lit & -> & _)%emitted_enforcement. eauto.
  - exists [], []. by rewrite !app_nil_r.
Qed.

Lemma model_only_grows_witness :
  ∃ xs cs,
    model_variables
      (table_optional small_variables short_tuples small_option small_model).1
    = model_variables small_model ++ xs
    ∧ model_constraints
        (table_optional small_variables short_tuples small_option small_model).1
      = model_constraints small_model ++ cs
    ∧ model_objective
        (table_optional small_variables short_tuples small_option small_model).1
      = model_objective small_model
    ∧ Forall (λ x, var_lb x = 0%Z ∧ var_ub x = 1%Z) xs
    ∧ Forall (λ c, ∃ lit, enforcement_literal c = [lit]) cs.
Proof.
  apply model_only_grows. intros opt [= <-]. reflexivity.
Defined.

Lemma bind_lookup {A B} (g : A → list B) (w : nat) (l : list A) i j x :
  (∀ y, y ∈ l → length (g y) = w) → l !! i = Some x → j < w →
  (l ≫= g) !! (i * w + j) = g x !! j.
Proof.
  revert i. induction l as [|y l IH]; intros i Hw Hi Hj; [done|].
  rewrite bind_cons.
  assert (length (g y) = w) as Hy by apply Hw, list_elem_of_here.
  destruct i as [|i]; simpl in *.
  - injection Hi as ->. by rewrite lookup_app_l by lia.
  - rewrite lookup_app_r by lia.
    replace (w + i * w + j - length (g y)) with (i * w + j) by lia.
    apply IH; [|done..]. intros z Hz. by apply Hw, list_elem_of_further.
Qed.

Lemma cell_index_inj w i j i' j' :
  j < w → j' < w → i * w + j = i' * w + j' → i = i' ∧ j = j'.
Proof.
  intros Hj Hj' Heq.
  assert (i = i').
  { apply (f_equal (λ x, x / w)) in Heq.
    by rewrite !Nat.div_add_l, !Nat.div_small, !Nat.add_0_r in Heq by lia. }
  subst i'. split; [done|lia].
Qed.

Section Declared.
Variables (m : CpModel) (variables : list IntVar) (tuples : list (list Z))
          (option : IntVar).

Lemma declared_b k :
  k < length tuples →
  model_variables (encoded m variables tuples option) !! Index (b_var m k)
  = Some (mkVar ("b[" +:+ pretty k +:+ "]") 0 1).
Proof.
  intros Hk. unfold encoded, b_var, b_declarations. simpl.
  rewrite lookup_app_r by lia.
  replace (length (model_variables m) + k - length (model_variables m)) with k by lia.
  rewrite lookup_app_l by by rewrite length_fmap, length_seq.
  by rewrite list_lookup_fmap, lookup_seq_lt.
Qed.

Lemma declared_is_assigned i j :
  i < length variables → j < width tuples →
  model_variables (encoded m variables tuples option)
    !! Index (is_assigned_var m tuples i j)
  = Some (mkVar ("is_assigned[" +:+ pretty i +:+ "][" +:+ pretty (Z.of_nat j) +:+ "]")
                0 1).
Proof.
  intros Hi Hj. unfold encoded, is_assigned_var, b_declarations. simpl.
  rewrite lookup_app_r by lia.
  rewrite lookup_app_r by (rewrite length_fmap, length_seq; lia).
  rewrite length_fmap, length_seq.
  replace (length (model_variables m) + length tuples + i * width tuples + j
           - length (model_variables m) - length tuples)
    with (i * width tuples + j) by lia.
  unfold is_assigned_declarations.
  rewrite (bind_lookup _ (width tuples) _ i j i); [|
    intros; unfold range; by rewrite length_fmap, length_seqZ |
    by apply lookup_seq_lt | done].
  unfold range. rewrite list_lookup_fmap, lookup_seqZ_lt; [done|].
  unfold width in Hj. lia.
Qed.
End Declared.

(** X9. When the call returns, [b] has one handle per tuple and
    [is_assigned] one row per variable with [max_value + 1] handles each, and
    the model declares behind each handle a Boolean with the name the code
    gave it, [b[k]] or [is_assigned[i][j]]. *)
Theorem auxiliaries_declared m variables tuples option vs ts opt :
  is_variables variables vs → is_tuples tuples ts → as_IntVar option = Some opt →
  fitting_input vs ts →
  ∃ b is_assigned,
    encode vs ts opt m
    = ((table_optional variables tuples option m).1, inr (b, is_assigned))
    ∧ length b = length ts
    ∧ length is_assigned = length vs
    ∧ Forall (λ row, length row = Z.to_nat (max_value_of ts + 1)) is_assigned
    ∧ (∀ k bk, b !! k = Some bk →
         model_variables (table_optional variables tuples option m).1 !! Index bk
         = Some (mkVar ("b[" +:+ pretty k +:+ "]") 0 1))
    ∧ (∀ i j row x, is_assigned !! i = Some row → row !! j = Some x →
         model_variables (table_optional variables tuples option m).1 !! Index x
         = Some (mkVar ("is_assigned[" +:+ pretty i +:+ "]["
                        +:+ pretty (Z.of_nat j) +:+ "]") 0 1)).
Proof.
  intros Hvs Hts Hopt Hfit.
  rewrite (table_optional_fitting _ _ _ vs ts opt) by done. cbn [fst].
  exists (b_of m ts), (is_assigned_of m vs ts).
  split_and!.
  - by apply encode_fitting.
  - unfold b_of. by rewrite length_fmap, length_seq.
  - apply is_assigned_of_length.
  - unfold is_assigned_of. apply Forall_fmap, Forall_true. intros i. simpl.
    by rewrite length_fmap, length_seq.
  - intros k bk Hk.
    assert (k < length ts) as Hlt.
    { apply lookup_lt_Some in Hk. unfold b_of in Hk.
      by rewrite length_fmap, length_seq in Hk. }
    rewrite b_of_lookup in Hk by done. injection Hk as <-. by apply declared_b.
  - intros i j row x Hrow Hx.
    destruct (is_assigned_cell m vs ts i row j x Hrow Hx) as (Hi & Hj & ->).
    by apply declared_is_assigned.
Qed.

(** X10. When the call returns, the handles in [b] and [is_assigned] are
    new, none is a variable the model held before the call, and pairwise
    distinct: no two cells of [b] and [is_assigned] share a variable. *)
Theorem auxiliaries_fresh_distinct m variables tuples option vs ts opt :
  is_variables variables vs → is_tuples tuples ts → as_IntVar option = Some opt →
  fitting_input vs ts →
  ∃ b is_assigned,
    encode vs ts opt m
    = ((table_optional variables tuples option m).1, inr (b, is_assigned))
    ∧ (∀ k bk, b !! k = Some bk → ¬ belongs_to m bk)
    ∧ (∀ i j row x, is_assigned !! i = Some row → row !! j = Some x →
         ¬ belongs_to m x)
    ∧ (∀ k k' bk, b !! k = Some bk → b !! k' = Some bk → k = k')
    ∧ (∀ i j row i' j' row' x,
         is_assigned !! i = Some row → row !! j = Some x →
         is_assigned !! i' = Some row' → row' !! j' = Some x →
         i = i' ∧ j = j')
    ∧ (∀ k i j row x, is_assigned !! i = Some row → row !! j = Some x →
         b !! k ≠ Some x).
Proof.
  intros Hvs Hts Hopt Hfit.
  rewrite (table_optional_fitting _ _ _ vs ts opt) by done. cbn [fst].
  exists (b_of m ts), (is_assigned_of m vs ts).
  assert (∀ k bk, b_of m ts !! k = Some bk → k < length ts ∧ bk = b_var m k) as Hb.
  { intros k bk Hk.
    assert (k < length ts) as Hlt.
    { apply lookup_lt_Some in Hk. unfold b_of in Hk.
      by rewrite length_fmap, length_seq in Hk. }
    rewrite b_of_lookup in Hk by done. by injection Hk as <-. }
  split_and!.
  - by apply encode_fitting.
  - intros k bk [_ ->]%Hb. unfold belongs_to, b_var. simpl. lia.
  - intros i j row x Hrow Hx.
    destruct (is_assigned_cell m vs ts i row j x Hrow Hx) as (_ & _ & ->).
    unfold belongs_to, is_assigned_var. simpl. lia.
  - intros k k' bk [_ ->]%Hb [_ Heq]%Hb. unfold b_var in Heq.
    injection Heq. lia.
  - intros i j row i' j' row' x Hrow Hx Hrow' Hx'.
    destruct (is_assigned_cell m vs ts i row j x Hrow Hx) as (_ & Hj & ->).
    destruct (is_assigned_cell m vs ts i' row' j' _ Hrow' Hx') as (_ & Hj' & Heq).
    unfold is_assigned_var in Heq. injection Heq as Heq.
    apply (cell_index_inj (width ts)); [done..|lia].
  - intros k i j row x Hrow Hx [Hk Heq]%Hb.
    destruct (is_assigned_cell m vs ts i row j x Hrow Hx) as (_ & _ & ->).
    unfold is_assigned_var, b_var in Heq. injection Heq. lia.
Qed.

Lemma demo_fitting_input : fitting_input demo_variables demo_tuples.
Proof. apply valid_input_fitting, demo_valid_input. Qed.

Lemma auxiliaries_declared_witness :
  model_variables
    (table_optional (py_variables demo_variables) (py_tuples demo_tuples)
       (PyIntVar demo_option) demo_model).1 !! 7
  = Some (mkVar "b[1]" 0 1)
  ∧ model_variables
      (table_optional (py_variables demo_variables) (py_tuples demo_tuples)
         (PyIntVar demo_option) demo_model).1
      !! Index (is_assigned_var demo_model demo_tuples 4 3)
    = Some (mkVar "is_assigned[4][3]" 0 1).
Proof.
  destruct (auxiliaries_declared demo_model
              (py_variables demo_variables) (py_tuples demo_tuples)
              (PyIntVar demo_option) demo_variables demo_tuples demo_option)
    as (b & is_assigned & Hrun & _ & _ & _ & Hb & Hcell).
  - apply py_variables_is.
  - apply py_tuples_is.
  - reflexivity.
  - apply demo_fitting_input.
  - rewrite encode_fitting in Hrun by apply demo_fitting_input.
    apply returned_value in Hrun. injection Hrun as <- <-.
    split.
    + apply (Hb 1 (mkIntVar 7)). reflexivity.
    + apply (Hcell 4 3
               (is_assigned_var demo_model demo_tuples 4 <$> seq 0 (width demo_tuples)));
        reflexivity.
Defined.

Lemma auxiliaries_fresh_distinct_witness :
  ¬ belongs_to demo_model (b_var demo_model 1)
  ∧ ¬ belongs_to demo_model (is_assigned_var demo_model demo_tuples 4 3)
  ∧ b_of demo_model demo_tuples !! 1
    ≠ Some (is_assigned_var demo_model demo_tuples 4 3).
Proof.
  destruct (auxiliaries_fresh_distinct demo_model
              (py_variables demo_variables) (py_tuples demo_tuples)
              (PyIntVar demo_option) demo_variables demo_tuples demo_option)
    as (b & is_assigned & Hrun & Hb & Hcell & _ & _ & Hdisjoint).
  - apply py_variables_is.
  - apply py_tuples_is.
  - reflexivity.
  - apply demo_fitting_input.
  - rewrite encode_fitting in Hrun by apply demo_fitting_input.
    apply returned_value in Hrun. injection Hrun as <- <-.
    split_and!.
    + apply (Hb 1). reflexivity.
    + apply (Hcell 4 3
               (is_assigned_var demo_model demo_tuples 4 <$> seq 0 (width demo_tuples)));
        reflexivity.
    + apply (Hdisjoint 1 4 3
               (is_assigned_var demo_model demo_tuples 4 <$> seq 0 (width demo_tuples)));
        reflexivity.
Defined.

Lemma bind_length_le {A B} (f : A → list B) (w : nat) (l : list A) :
  (∀ x, x ∈ l → length (f x) ≤ w) → length (l ≫= f) ≤ length l * w.
Proof.
  induction l as [|x l IH]; intros Hw; csimpl; [done|].
  rewrite length_app.
  assert (length (f x) ≤ w) by apply Hw, list_elem_of_here.
  assert (length (l ≫= f) ≤ length l * w); [|lia].
  apply IH. intros; apply Hw. by apply list_elem_of_further.
Qed.

Section Size.
Variables (m : CpModel) (variables : list IntVar) (tuples : list (list Z))
          (option : IntVar).

Lemma pruning_constraints_length :
  length (pruning_constraints m variables tuples option)
  ≤ length variables * width tuples.
Proof.
  unfold pruning_constraints.
  etrans; [apply (bind_length_le _ (width tuples))|by rewrite length_seq].
  intros i _.
  etrans; [apply (bind_length_le _ 1)|].
  - intros j _. case_decide; simpl; lia.
  - unfold range, width. rewrite length_seqZ. lia.
Qed.

Lemma linking_constraints_length :
  length (linking_constraints m variables tuples)
  = length variables * width tuples.
Proof.
  unfold linking_constraints.
  rewrite (bind_length _ (width tuples)), length_seq; [done|].
  intros i Hi%elem_of_seq.
  destruct (lookup_lt_is_Some_2 variables i) as [v ->]; [lia|].
  unfold range, width. by rewrite length_fmap, length_seqZ.
Qed.

Lemma emitted_constraints_length :
  length variables * width tuples + length variables + length tuples + 1
  ≤ length (emitted_constraints m variables tuples option)
  ≤ 2 * (length variables * width tuples) + length variables + length tuples + 1.
Proof.
  unfold emitted_constraints. rewrite !length_app.
  pose proof pruning_constraints_length. rewrite linking_constraints_length.
  unfold one_value_constraints, table_constraints.
  rewrite length_fmap, is_assigned_of_length, length_imap. simpl. lia.
Qed.
End Size.

(** X11. When the call returns, it has declared one variable per tuple and
    [max_value + 1] variables per position, and has added between
    [N * W + N + K + 1] and [2 * N * W + N + K + 1] constraints, for [N]
    variables, [K] tuples and [W = max_value + 1]. *)
Theorem encoding_size m variables tuples option vs ts opt :
  is_variables variables vs → is_tuples tuples ts → as_IntVar option = Some opt →
  fitting_input vs ts →
  length (new_variables m (table_optional variables tuples option m).1)
  = length ts + length vs * Z.to_nat (max_value_of ts + 1)
  ∧ length vs * Z.to_nat (max_value_of ts + 1) + length vs + length ts + 1
    ≤ length (new_constraints m (table_optional variables tuples option m).1)
    ≤ 2 * (length vs * Z.to_nat (max_value_of ts + 1)) + length vs + length ts + 1.
Proof.
  intros Hvs Hts Hopt Hfit.
  rewrite (table_optional_fitting _ _ _ vs ts opt) by done. cbn [fst].
  rewrite new_variables_encoded, new_constraints_encoded, length_imap.
  split; [apply declarations_length|apply emitted_constraints_length].
Qed.

Lemma encoding_size_witness :
  length (new_variables demo_model
            (table_optional (py_variables demo_variables) (py_tuples demo_tuples)
               (PyIntVar demo_option) demo_model).1) = 52
  ∧ 58 ≤ length (new_constraints demo_model
                   (table_optional (py_variables demo_variables)
                      (py_tuples demo_tuples) (PyIntVar demo_option) demo_model).1)
       ≤ 108.
Proof.
  apply (encoding_size demo_model
           (py_variables demo_variables) (py_tuples demo_tuples)
           (PyIntVar demo_option) demo_variables demo_tuples demo_option).
  - apply py_variables_is.
  - apply py_tuples_is.
  - reflexivity.
  - apply demo_fitting_input.
Defined.

(** ** Tuples shorter than [variables] *)

Section Prefix.
Variables (m : CpModel) (variables : list IntVar) (tuples : list (list Z))
          (option : IntVar) (a : Assignment).
Hypothesis Hfit : fitting_input variables tuples.
Hypothesis Hsat : satisfies_emitted a m (encoded m variables tuples option) = true.

(** The tuple whose indicator is true is the value of the variables at its
    own positions. *)
Lemma selected_prefix k t :
  tuples !! k = Some t → value a (b_var m k) = 1%Z →
  take (length t) (value a <$> variables) = t.
Proof.
  intros Hk Hb.
  assert (t ∈ tuples) as Ht by by eapply list_elem_of_lookup_2.
  destruct Hfit as [(_ & _ & _ & Hpos) Hlen].
  assert (Forall (λ t : list Z, length t ≤ length variables) tuples) as Hle.
  { eapply Forall_impl; [done|]. simpl. lia. }
  apply list_eq. intros i.
  destruct (decide (i < length t)) as [Hi|Hi].
  - rewrite lookup_take_lt, list_lookup_fmap by done.
    destruct (lookup_lt_is_Some_2 t i Hi) as [tj Hj].
    destruct (fitting_value_range variables tuples Hpos Hle t i tj Ht Hj)
      as [Hlt Hrange].
    destruct (lookup_lt_is_Some_2 variables i Hlt) as [v Hv].
    rewrite Hv, Hj. simpl. f_equal.
    eapply (linking_sound m variables tuples option a Hsat i v); [done..|].
    by eapply (table_sound m variables tuples option a Hsat).
  - rewrite lookup_take_ge by lia. symmetry. apply lookup_ge_None. lia.
Qed.

(** With [option] true every variable has a value found at its position in
    some tuple: one cell of its row is true, and a cell for a value found in
    no tuple is false. *)
Lemma position_value_possible i v :
  value a option = 1%Z → variables !! i = Some v →
  ∃ t, t ∈ tuples ∧ t !! i = Some (value a v).
Proof.
  intros Htrue Hv.
  assert (i < length variables) as Hi by by eapply lookup_lt_Some.
  destruct (sum_values_one a (is_assigned_var m tuples i <$> seq 0 (width tuples)))
    as (j0 & x0 & Hx0 & Hone & _).
  { apply Forall_fmap, Forall_seq. intros j' Hj'. simpl.
    apply (is_assigned_var_boolean m variables tuples option a Hsat); [done|lia]. }
  { by apply (one_value_sound m variables tuples option a Hsat). }
  destruct (is_assigned_cell m variables tuples i _ j0 x0
              (is_assigned_of_lookup m variables tuples i Hi) Hx0) as (_ & Hj0 & ->).
  unfold width in Hj0.
  assert (value a v = Z.of_nat j0) as ->.
  { eapply (linking_sound m variables tuples option a Hsat i v); [done|lia|].
    by rewrite Nat2Z.id. }
  destruct (decide (Exists (λ t : list Z, t !! i = Some (Z.of_nat j0)) tuples))
    as [(t & Ht & Hti)%Exists_exists|Hnone]; [by eauto|].
  assert (value a (is_assigned_var m tuples i (Z.to_nat (Z.of_nat j0))) = 0%Z) as Hzero.
  { apply (pruning_sound m variables tuples option a Hsat); [done|done|lia|].
    intros t Ht Hti. apply Hnone, Exists_exists. eauto. }
  rewrite Nat2Z.id in Hzero. lia.
Qed.
End Prefix.

(** X12. When the call returns, tuples shorter than [variables] included,
    every assignment that satisfies what was emitted and makes [option] true
    gives the variables, at the positions of some member of [tuples], the
    values of that member, and gives every variable, the ones after the end
    of that member too, a value found at its position in some tuple. *)
Theorem shorter_tuple_matches_prefix m variables tuples option vs ts opt :
  is_variables variables vs → is_tuples tuples ts → as_IntVar option = Some opt →
  fitting_input vs ts →
  (table_optional variables tuples option m).2 = inr tt
  ∧ ∀ a, satisfies_emitted a m (table_optional variables tuples option m).1 = true →
         value a opt = 1%Z →
         (∃ t, t ∈ ts ∧ take (length t) (value a <$> vs) = t)
         ∧ ∀ i v, vs !! i = Some v → ∃ t, t ∈ ts ∧ t !! i = Some (value a v).
Proof.
  intros Hvs Hts Hopt Hfit.
  rewrite (table_optional_fitting _ _ _ vs ts opt) by done. cbn [fst snd].
  split; [done|]. intros a Hsat Htrue. split.
  - destruct (exactly_one_tuple m vs ts opt a Hsat Htrue) as (k & t & Hk & Hb & _).
    exists t. split; [by eapply list_elem_of_lookup_2|].
    by eapply selected_prefix.
  - intros i v Hv. by eapply position_value_possible.
Qed.

Lemma shorter_tuple_matches_prefix_witness :
  value short_solution <$> [mkIntVar 0; mkIntVar 1] = [2; 1]%Z
  ∧ (∃ t, t ∈ [[0; 1]; [2]]%Z
          ∧ take (length t) (value short_solution <$> [mkIntVar 0; mkIntVar 1]) = t)
  ∧ ∃ t, t ∈ [[0; 1]; [2]]%Z ∧ t !! 1 = Some (value short_solution (mkIntVar 1)).
Proof.
  split; [reflexivity|].
  destruct (shorter_tuple_matches_prefix small_model small_variables short_tuples
              small_option [mkIntVar 0; mkIntVar 1] [[0; 1]; [2]]%Z (mkIntVar 2))
    as [_ H].
  - eexists. split; [reflexivity|]. repeat constructor.
  - eexists. split; [reflexivity|].
    repeat constructor; eexists; (split; [reflexivity|]); repeat constructor.
  - reflexivity.
  - split; [split_and!; [done..| |]|].
    + exists [0; 1]%Z. by split.
    + repeat constructor; done.
    + repeat constructor; simpl; lia.
  - destruct (H short_solution) as [Hprefix Hpos];
      [vm_compute; reflexivity|reflexivity|].
    split; [exact Hprefix|]. apply (Hpos 1 (mkIntVar 1)). reflexivity.
Defined.

(** ** Arguments the assertions refuse *)

(** X13. A call whose [variables] or [tuples] is no list or tuple, whose
    [variables] holds something that is no [IntVar], whose [tuples] holds
    something that is no list or tuple, or a tuple with something that is no
    [int], or whose [option] is no [IntVar], fails its assertion with the
    model as it was. *)
Theorem ill_typed_rejected m variables tuples option :
  as_sequence variables = None
  ∨ (∃ items x, as_sequence variables = Some items ∧ x ∈ items ∧ as_IntVar x = None)
  ∨ as_sequence tuples = None
  ∨ (∃ items t, as_sequence tuples = Some items ∧ t ∈ items ∧ as_sequence t = None)
  ∨ (∃ items t elements e,
       as_sequence tuples = Some items ∧ t ∈ items
       ∧ as_sequence t = Some elements ∧ e ∈ elements ∧ as_int e = None)
  ∨ as_IntVar option = None →
  table_optional variables tuples option m = (m, inl AssertionError).
Proof.
  intros Hbad. apply table_optional_rejects.
  destruct (checked variables tuples option) as [[[vs ts] opt]|] eqn:Hchecked; [|done].
  exfalso.
  apply checked_Some in Hchecked
    as ((vitems & Hvseq & Hvs) & (titems & Htseq & Hts) & Hopt & _).
  destruct Hbad as [H|[(items & x & Hseq & Hin & Hx)|[H|[(items & t & Hseq & Hin & Ht)
                   |[(items & t & elements & e & Hseq & Hin & Hel & He & Hint)|H]]]]].
  - congruence.
  - rewrite Hseq in Hvseq. injection Hvseq as <-.
    apply list_elem_of_lookup_1 in Hin as [k Hk].
    destruct (Forall2_lookup_l _ _ _ _ _ Hvs Hk) as (v & _ & Hv). congruence.
  - congruence.
  - rewrite Hseq in Htseq. injection Htseq as <-.
    apply list_elem_of_lookup_1 in Hin as [k Hk].
    destruct (Forall2_lookup_l _ _ _ _ _ Hts Hk) as (t' & _ & (es & Hes & _)).
    congruence.
  - rewrite Hseq in Htseq. injection Htseq as <-.
    apply list_elem_of_lookup_1 in Hin as [k Hk].
    destruct (Forall2_lookup_l _ _ _ _ _ Hts Hk) as (t' & _ & (es & Hes & Hall)).
    rewrite Hel in Hes. injection Hes as <-.
    apply list_elem_of_lookup_1 in He as [j Hj].
    destruct (Forall2_lookup_l _ _ _ _ _ Hall Hj) as (z & _ & Hz). congruence.
  - congruence.
Qed.

Lemma ill_typed_rejected_witness :
  table_optional small_variables short_tuples (PyInt 1) small_model
  = (small_model, inl AssertionError).
Proof. apply ill_typed_rejected. do 5 right. reflexivity. Defined.

(** X14. A call whose first tuple has not the length of [variables] fails
    the assertion of line 32 with the model as it was. *)
Theorem first_tuple_length_checked m variables tuples option items t0 rest elements :
  as_sequence variables = Some items →
  as_sequence tuples = Some (t0 :: rest) →
  as_sequence t0 = Some elements →
  length elements ≠ length items →
  table_optional variables tuples option m = (m, inl AssertionError).
Proof.
  intros Hitems Htuples Ht0 Hlen. apply table_optional_rejects.
  destruct (checked variables tuples option) as [[[vs ts] opt]|] eqn:Hchecked; [|done].
  exfalso.
  apply checked_Some in Hchecked
    as ((vitems & Hvseq & Hvs) & (titems & Htseq & Hts) & _
        & _ & _ & (t0' & Hfirst & Hlen') & _).
  rewrite Hitems in Hvseq. injection Hvseq as <-.
  rewrite Htuples in Htseq. injection Htseq as <-.
  apply Forall2_length in Hvs.
  apply Forall2_cons_inv_l in Hts as (t' & ts' & (es & Hes & Hall) & _ & ->).
  simpl in Hfirst. injection Hfirst as <-.
  rewrite Ht0 in Hes. injection Hes as <-.
  apply Forall2_length in Hall. lia.
Qed.

Lemma first_tuple_length_checked_witness :
  table_optional small_variables
    (PyList [PyTuple [PyInt 2]; PyTuple [PyInt 0; PyInt 1]]) small_option small_model
  = (small_model, inl AssertionError).
Proof.
  apply (first_tuple_length_checked small_model small_variables _ small_option
           [PyIntVar (mkIntVar 0); PyIntVar (mkIntVar 1)]
           (PyTuple [PyInt 2]) [PyTuple [PyInt 0; PyInt 1]] [PyInt 2]);
    [reflexivity..|simpl; lia].
Defined.

(** ** Two calls on one model *)

(** What two successive extensions of a model added, taken together. *)
Lemma satisfies_emitted_split a m xs1 cs1 xs2 cs2 :
  satisfies_emitted a m
    (add_constraints (add_variables (add_constraints (add_variables m xs1) cs1) xs2) cs2)
  = satisfies_emitted a m (add_constraints (add_variables m xs1) cs1)
    && satisfies_emitted a (add_constraints (add_variables m xs1) cs1)
         (add_constraints (add_variables (add_constraints (add_variables m xs1) cs1) xs2)
                          cs2).
Proof.
  unfold satisfies_emitted, new_variables, new_constraints. simpl.
  rewrite <- !app_assoc, !drop_imap_app, !drop_app_length.
  rewrite (app_assoc (model_variables m)), drop_imap_app.
  rewrite (app_assoc (model_constraints m)), drop_app_length.
  rewrite imap_app, !forallb_app, length_app.
  rewrite (imap_ext (λ n, pair (length (model_variables m) + (length xs1 + n)))
                    (λ k, pair (length (model_variables m) + length xs1 + k)))
    by (intros; f_equal; lia).
  repeat match goal with |- context [forallb ?f ?l] =>
    let b := fresh "b" in generalize (forallb f l); intros b end.
  by repeat match goal with b : bool |- _ => destruct b end.
Qed.

Lemma encoded_split a m vs1 ts1 opt1 vs2 ts2 opt2 :
  satisfies_emitted a m (encoded (encoded m vs1 ts1 opt1) vs2 ts2 opt2) = true →
  satisfies_emitted a m (encoded m vs1 ts1 opt1) = true
  ∧ satisfies_emitted a (encoded m vs1 ts1 opt1)
      (encoded (encoded m vs1 ts1 opt1) vs2 ts2 opt2) = true.
Proof.
  unfold encoded at 1 4. unfold encoded at 3. unfold encoded at 1 2 3.
  rewrite satisfies_emitted_split. apply andb_true_iff.
Qed.

(** X15. Two calls in sequence on valid inputs both return, and the second
    leaves the encoding of the first in force: every assignment that
    satisfies what the two calls emitted gives the variables of each call
    whose option is true the values of one of its tuples. *)
Theorem two_calls_compose m variables1 tuples1 option1 variables2 tuples2 option2
    vs1 ts1 opt1 vs2 ts2 opt2 :
  is_variables variables1 vs1 → is_tuples tuples1 ts1 → as_IntVar option1 = Some opt1 →
  valid_input vs1 ts1 →
  is_variables variables2 vs2 → is_tuples tuples2 ts2 → as_IntVar option2 = Some opt2 →
  valid_input vs2 ts2 →
  ((_ <~ table_optional variables1 tuples1 option1 ;
    table_optional variables2 tuples2 option2) m).2 = inr tt
  ∧ ∀ a, satisfies_emitted a m
           ((_ <~ table_optional variables1 tuples1 option1 ;
             table_optional variables2 tuples2 option2) m).1 = true →
         (value a opt1 = 1%Z → ∃ t, t ∈ ts1 ∧ value a <$> vs1 = t)
         ∧ (value a opt2 = 1%Z → ∃ t, t ∈ ts2 ∧ value a <$> vs2 = t).
Proof.
  intros Hvs1 Hts1 Hopt1 Hvalid1 Hvs2 Hts2 Hopt2 Hvalid2.
  erewrite bind_returns by by apply (table_optional_returns _ _ _ vs1 ts1 opt1).
  rewrite (table_optional_returns _ _ _ vs2 ts2 opt2) by done. cbn [fst snd].
  split; [done|]. intros a [Hsat1 Hsat2]%encoded_split.
  split; intros Htrue.
  - destruct (exactly_one_tuple _ _ _ _ a Hsat1 Htrue) as (k & t & Hk & Hb & _).
    exists t. split; [by eapply list_elem_of_lookup_2|]. by eapply selected_tuple.
  - destruct (exactly_one_tuple _ _ _ _ a Hsat2 Htrue) as (k & t & Hk & Hb & _).
    exists t. split; [by eapply list_elem_of_lookup_2|]. by eapply selected_tuple.
Qed.

Lemma two_calls_compose_witness :
  (∃ t, t ∈ demo_tuples ∧ value demo_twice <$> demo_variables = t)
  ∧ (∃ t, t ∈ [[0; 1; 2; 3; 4]]%Z ∧ value demo_twice <$> demo_variables = t).
Proof.
  destruct (two_calls_compose demo_model
              (py_variables demo_variables) (py_tuples demo_tuples)
              (PyIntVar demo_option)
              (py_variables demo_variables) (py_tuples [[0; 1; 2; 3; 4]]%Z)
              (PyIntVar demo_option)
              demo_variables demo_tuples demo_option
              demo_variables [[0; 1; 2; 3; 4]]%Z demo_option)
    as [_ H].
  - apply py_variables_is.
  - apply py_tuples_is.
  - reflexivity.
  - apply demo_valid_input.
  - apply py_variables_is.
  - apply py_tuples_is.
  - reflexivity.
  - split_and!; [done..|]. repeat constructor; done.
  - destruct (H demo_twice) as [H1 H2]; [vm_compute; reflexivity|].
    split; [apply H1|apply H2]; reflexivity.
Defined.

(** ** The encoding as an optional table constraint *)

Lemma auxiliaries_false_disabled m variables tuples option a0 :
  belongs_to m option → value a0 option ≠ 1%Z →
  satisfies_emitted (auxiliaries_false m a0) m (encoded m variables tuples option)
  = true.
Proof.
  intros Hbelong Hopt. apply satisfies_encoded. split.
  - intros k _. unfold auxiliaries_false. case_decide; lia.
  - apply Forall_forall. intros c (b & lit & -> & Hlit)%emitted_enforcement.
    apply not_enforced.
    destruct Hlit as [->|Hlit].
    + by rewrite auxiliaries_false_agrees.
    + unfold value, auxiliaries_false. case_decide; lia.
Qed.

(** X16. On every valid input whose variables and option belong to the
    model, what the call emits is the optional table constraint and no more:
    values for the variables of the model extend to an assignment satisfying
    what was emitted exactly when they make [option] false or give
    [variables] the values of a member of [tuples]. *)
Theorem encoding_is_optional_table m variables tuples option vs ts opt :
  is_variables variables vs → is_tuples tuples ts → as_IntVar option = Some opt →
  valid_input vs ts → Forall (belongs_to m) vs → belongs_to m opt →
  ∀ a0 : Assignment,
    (∃ a, (∀ v, belongs_to m v → value a v = value a0 v)
          ∧ satisfies_emitted a m (table_optional variables tuples option m).1 = true)
    ↔ (value a0 opt = 1%Z → ∃ t, t ∈ ts ∧ value a0 <$> vs = t).
Proof.
  intros Hvs Hts Hopt Hvalid Hbelong Hobelong a0.
  rewrite (table_optional_returns _ _ _ vs ts opt) by done. cbn [fst].
  assert (∀ a, (∀ v, belongs_to m v → value a v = value a0 v) →
               value a <$> vs = value a0 <$> vs) as Hsame.
  { intros a Hagree. apply Forall_fmap_ext_1. eapply Forall_impl; [done|]. auto. }
  split.
  - intros (a & Hagree & Hsat) Htrue.
    rewrite <- (Hagree opt Hobelong) in Htrue.
    destruct (exactly_one_tuple m vs ts opt a Hsat Htrue) as (k & t & Hk & Hb & _).
    exists t. split; [by eapply list_elem_of_lookup_2|].
    rewrite <- (Hsame a Hagree). by eapply selected_tuple.
  - intros Htable. destruct (decide (value a0 opt = 1%Z)) as [Htrue|Hfalse].
    + destruct (Htable Htrue) as (t & [k Hk]%list_elem_of_lookup_1 & Hvalues).
      exists (realize m ts k t a0). split.
      * intros v Hv. by apply realize_agrees.
      * by apply realize_satisfies.
    + exists (auxiliaries_false m a0). split.
      * intros v Hv. by apply auxiliaries_false_agrees.
      * by apply auxiliaries_false_disabled.
Qed.

Lemma encoding_is_optional_table_witness :
  (∃ a, (∀ v, belongs_to demo_model v → value a v = value demo_second v)
        ∧ satisfies_emitted a demo_model
            (table_optional (py_variables demo_variables) (py_tuples demo_tuples)
               (PyIntVar demo_option) demo_model).1 = true)
  ↔ (value demo_second demo_option = 1%Z →
     ∃ t, t ∈ demo_tuples ∧ value demo_second <$> demo_variables = t).
Proof.
  apply (encoding_is_optional_table demo_model
           (py_variables demo_variables) (py_tuples demo_tuples)
           (PyIntVar demo_option) demo_variables demo_tuples demo_option).
  - apply py_variables_is.
  - apply py_tuples_is.
  - reflexivity.
  - apply demo_valid_input.
  - unfold belongs_to. repeat constructor; simpl; lia.
  - unfold belongs_to. simpl. lia.
Defined.
